(** * dtl: branchless integer kernel and RAII wrappers

    A shallow embedding of [branchless.hh] (abs, min, max and the
    power-of-two helpers) and of the two [raii] headers (the [fd] and
    [mmap] ownership wrappers), followed by the properties proved of them.

    Integers are mathematical integers (Z) together with the type they
    have in the C++ source; every conversion and every arithmetic result is
    reduced into the range of its type explicitly. *)

From Stdlib Require Import ZArith Lia List Bool String.
Import ListNotations.
Local Open Scope Z_scope.

(* ================================================================== *)
(** * C++ integer types and expressions *)
(* ================================================================== *)

Module Cxx.

(** The fixed-width integer types of <cstdint> on an LP64 target. *)
Inductive itype : Type :=
| I8 | I16 | I32 | I64
| U8 | U16 | U32 | U64.

Definition bits (t : itype) : Z :=
  match t with
  | I8 | U8 => 8
  | I16 | U16 => 16
  | I32 | U32 => 32
  | I64 | U64 => 64
  end.

Definition is_signed (t : itype) : bool :=
  match t with
  | I8 | I16 | I32 | I64 => true
  | U8 | U16 | U32 | U64 => false
  end.

Definition min_of (t : itype) : Z :=
  if is_signed t then - 2 ^ (bits t - 1) else 0.

Definition max_of (t : itype) : Z :=
  if is_signed t then 2 ^ (bits t - 1) - 1 else 2 ^ bits t - 1.

Definition in_range (t : itype) (z : Z) : Prop :=
  min_of t <= z <= max_of t.

(** Reduction of a mathematical integer into the range of [t]: modulo
    [2 ^ bits t] for an unsigned type, two's complement for a signed one. *)
Definition wrap (t : itype) (z : Z) : Z :=
  if is_signed t
  then (z + 2 ^ (bits t - 1)) mod 2 ^ bits t - 2 ^ (bits t - 1)
  else z mod 2 ^ bits t.

(** Integral promotion: anything narrower than [int] becomes [int]. *)
Definition promote (t : itype) : itype :=
  match t with
  | I8 | I16 | U8 | U16 => I32
  | _ => t
  end.

(** Usual arithmetic conversions, on promoted operand types. *)
Definition common (a b : itype) : itype :=
  match promote a, promote b with
  | U64, _ | _, U64 => U64
  | I64, _ | _, I64 => I64
  | U32, _ | _, U32 => U32
  | _, _ => I32
  end.

(** A value together with its static type. *)
Record cval : Type := Val { type_of : itype; num : Z }.

Definition conv (t : itype) (v : cval) : cval :=
  Val t (wrap t (num v)).

Definition binop (f : Z -> Z -> Z) (a b : cval) : cval :=
  let t := common (type_of a) (type_of b) in
  Val t (wrap t (f (wrap t (num a)) (wrap t (num b)))).

Definition add : cval -> cval -> cval := binop Z.add.
Definition sub : cval -> cval -> cval := binop Z.sub.
Definition xor : cval -> cval -> cval := binop Z.lxor.
Definition and : cval -> cval -> cval := binop Z.land.
Definition or : cval -> cval -> cval := binop Z.lor.

(** Unary minus: the operand is promoted, the result has the promoted
    type. *)
Definition neg (a : cval) : cval :=
  let t := promote (type_of a) in
  Val t (wrap t (- wrap t (num a))).

(** [a >> n] for a shift count [n]: the result has the promoted type of
    the left operand. *)
Definition shr (a : cval) (n : Z) : cval :=
  let t := promote (type_of a) in
  Val t (wrap t (Z.shiftr (wrap t (num a)) n)).

(** [a < b]: a [bool], given here with the value (0 or 1) and the type
    ([int]) that it takes under integral promotion. *)
Definition lt (a b : cval) : cval :=
  let t := common (type_of a) (type_of b) in
  Val I32 (if wrap t (num a) <? wrap t (num b) then 1 else 0).

(** [a == b]. *)
Definition eq (a b : cval) : bool :=
  let t := common (type_of a) (type_of b) in
  wrap t (num a) =? wrap t (num b).

(** An [int] literal. *)
Definition lit (z : Z) : cval := Val I32 z.

End Cxx.

(* ================================================================== *)
(** * branchless.hh *)
(* ================================================================== *)

Module Branchless.
Import Cxx.

(** ** The [sign_extend_N] unions

    [sign_extend_N(value)] initialises [dword], a signed integer twice
    as wide as [value].  The union is represented by the bit pattern of
    [dword]; [loword] and [hiword] read its low and high half, which is
    where a little-endian target places the first and the second member
    of the anonymous struct. *)

Definition sign_extend (T : itype) (value : Z) : Z :=
  value mod 2 ^ (2 * bits T).

Definition loword (T : itype) (u : Z) : Z :=
  wrap T (Z.land u (Z.ones (bits T))).

Definition hiword (T : itype) (u : Z) : Z :=
  wrap T (Z.shiftr u (bits T)).

Definition mask (T : itype) (u : Z) : Z := hiword T u.

(** ** abs, min, max

    [abs] is instantiated for the signed types only: [sign_extend<T>]
    does not exist for the others. *)

Definition abs (T : itype) (value : Z) : cval :=
  let mask := Val T (mask T (sign_extend T value)) in
  sub (xor (Val T value) mask) mask.

Definition min (T : itype) (x y : Z) : Z :=
  num (conv T (xor (Val T y)
                   (and (xor (Val T x) (Val T y))
                        (neg (lt (Val T x) (Val T y)))))).

Definition max (T : itype) (x y : Z) : Z :=
  num (conv T (xor (Val T x)
                   (and (xor (Val T x) (Val T y))
                        (neg (lt (Val T x) (Val T y)))))).

(** ** power_of_2 *)

Module power_of_2.

Definition isa (T : itype) (value : Z) : bool :=
  eq (and (sub (Val T value) (lit 1)) (Val T value)) (lit 0).

(** [--value] and [++value] on an lvalue of type [T]. *)
Definition dec (T : itype) (value : Z) : Z :=
  num (conv T (sub (Val T value) (lit 1))).

Definition inc (T : itype) (value : Z) : Z :=
  num (conv T (add (Val T value) (lit 1))).

(** [value |= value >> n]. *)
Definition or_shr (T : itype) (value n : Z) : Z :=
  num (conv T (or (Val T value) (shr (Val T value) n))).

Definition roundup (T : itype) (value : Z) : Z :=
  let value := dec T value in
  let value := or_shr T value 1 in
  let value := or_shr T value 2 in
  let value := or_shr T value 4 in
  let value := or_shr T value 8 in
  let value := or_shr T value 16 in
  let value := inc T value in
  value.

Definition isa_minus_1 (T : itype) (value : Z) : bool :=
  eq (and (Val T value) (add (Val T value) (lit 1))) (lit 0).

Definition roundup_minus_1 (T : itype) (value : Z) : Z :=
  let value := dec T value in
  let value := or_shr T value 1 in
  let value := or_shr T value 2 in
  let value := or_shr T value 4 in
  let value := or_shr T value 8 in
  let value := or_shr T value 16 in
  value.

End power_of_2.

End Branchless.

(* ================================================================== *)
(** * The operating system seen from the wrappers *)
(* ================================================================== *)

Module Posix.

(** Values of <errno.h> and <sys/mman.h> on Linux.  Only [EINTR] being
    one particular code, and [MAP_FAILED] being [(void * ) -1] and so
    different from the null pointer, matter below. *)
Definition EINTR : Z := 4.
Definition EBADF : Z := 9.
Definition nullptr : Z := 0.
Definition MAP_FAILED : Z := 2 ^ 64 - 1.
Definition MAP_ANONYMOUS : Z := 32.

(** The system calls the wrappers make, with their arguments. *)
Inductive call : Type :=
| Close (fd : Z)
| Fstat (fd : Z)
| Mmap (addr len prot flags fd off : Z)
| Munmap (addr len : Z).

(** What one call answers: its return value, the value of [errno] once
    it has returned, and the [st_size] that [fstat] stores. *)
Record reply : Type := Reply { ret : Z; err : Z; st_size : Z }.

(** The system is an oracle: [pending] lists the answers of the calls
    still to come, [trace] the calls made so far with their answers. *)
Record world : Type :=
  World { pending : list reply; errno : Z; trace : list (call * reply) }.

Definition answer (c : call) (r : reply) (rs : list reply) (w : world) : world :=
  {| pending := rs; errno := err r; trace := trace w ++ [(c, r)] |}.

(** A call that finds no answer left does not return. *)
Definition syscall (c : call) (w : world) : option (reply * world) :=
  match pending w with
  | [] => None
  | r :: rs => Some (r, answer c r rs w)
  end.

(** [std::system_error(code, std::system_category(), what)]; [what] is
    absent where the source passes no label. *)
Record system_error : Type :=
  SystemError { code : Z; what : option string }.

(** How a call of a member function ends: it returns, it throws, the
    program is ended by [std::terminate], or it waits for ever on a
    system call. *)
Inductive outcome (A : Type) : Type :=
| Returned (a : A)
| Thrown (e : system_error)
| Terminated
| Blocked.
Arguments Returned {A} a.
Arguments Thrown {A} e.
Arguments Terminated {A}.
Arguments Blocked {A}.

(** The [while (true)] loop of [fd::close], the same in both headers up
    to the label given to the error: call [::close]; leave the loop when
    it returns 0; go round again when [errno] is [EINTR]; throw
    otherwise.  One answer is consumed per iteration. *)
Fixpoint close_loop (label : option string) (h : Z)
         (rs : list reply) (w : world) {struct rs} : outcome unit * world :=
  match rs with
  | [] => (Blocked, w)
  | r :: rs' =>
      let w' := answer (Close h) r rs' w in
      if ret r =? 0 then (Returned tt, w')
      else if errno w' =? EINTR then close_loop label h rs' w'
      else (Thrown (SystemError (errno w') label), w')
  end.

End Posix.

(* ================================================================== *)
(** * raii::fd, first header: closing the sentinel is a no-op *)
(* ================================================================== *)

Module Fd.
Import Posix.

Definition invalid : Z := -1.

Record fd : Type := Build { handle : Z }.

Definition label : option string := Some "close"%string.

Definition close (this : fd) (w : world) : outcome unit * fd * world :=
  if handle this =? invalid then (Returned tt, this, w)
  else
    match close_loop label (handle this) (pending w) w with
    | (Returned _, w') => (Returned tt, Build invalid, w')
    | (o, w') => (o, this, w')
    end.

(** [fd(int fd = invalid)]. *)
Definition construct (raw : Z) : fd := Build raw.

(** [fd(fd && other)]: the new object and what is left of [other]. *)
Definition move_construct (other : fd) : fd * fd :=
  (Build (handle other), Build invalid).

(** [operator=(fd && other)]: result, [this], [other], world. *)
Definition assign_move (this other : fd) (w : world)
  : outcome unit * fd * fd * world :=
  match close this w with
  | (Returned _, _, w') => (Returned tt, Build (handle other), Build invalid, w')
  | (o, this', w') => (o, this', other, w')
  end.

(** [operator=(int fd)]. *)
Definition assign_raw (this : fd) (raw : Z) (w : world) : outcome unit * fd * world :=
  match close this w with
  | (Returned _, _, w') => (Returned tt, Build raw, w')
  | r => r
  end.

(** [~fd()]. *)
Definition destroy (this : fd) (w : world) : outcome unit * fd * world :=
  close this w.

Definition release (this : fd) (w : world) : outcome Z * fd * world :=
  let tmp := handle this in
  let this := Build invalid in
  (Returned tmp, this, w).

Definition reset (this : fd) (raw : Z) (w : world) : outcome unit * fd * world :=
  match close this w with
  | (Returned _, _, w') => (Returned tt, Build raw, w')
  | r => r
  end.

(** [reset()], with the default argument [fd = invalid]. *)
Definition reset_default (this : fd) : world -> outcome unit * fd * world :=
  reset this invalid.

Definition get (this : fd) : Z := handle this.
Definition to_int (this : fd) : Z := handle this.
Definition to_bool (this : fd) : bool := negb (handle this =? invalid).

Definition eqb (lhs rhs : fd) : bool := get lhs =? get rhs.
Definition neqb (lhs rhs : fd) : bool := negb (get lhs =? get rhs).

End Fd.

(* ================================================================== *)
(** * raii::fd, second header: closing the sentinel is an error *)
(* ================================================================== *)

Module FdStrict.
Import Posix.

Definition invalid : Z := -1.

Record fd : Type := Build { handle : Z }.

Definition label : option string := None.

Definition close (this : fd) (w : world) : outcome unit * fd * world :=
  if handle this =? invalid then (Thrown (SystemError EBADF label), this, w)
  else
    match close_loop label (handle this) (pending w) w with
    | (Returned _, w') => (Returned tt, Build invalid, w')
    | (o, w') => (o, this, w')
    end.

Definition construct (raw : Z) : fd := Build raw.

Definition move_construct (other : fd) : fd * fd :=
  (Build (handle other), Build invalid).

(** [if (handle != invalid) close();] *)
Definition close_if_valid (this : fd) (w : world) : outcome unit * fd * world :=
  if negb (handle this =? invalid) then close this w else (Returned tt, this, w).

Definition assign_move (this other : fd) (w : world)
  : outcome unit * fd * fd * world :=
  match close_if_valid this w with
  | (Returned _, _, w') => (Returned tt, Build (handle other), Build invalid, w')
  | (o, this', w') => (o, this', other, w')
  end.

Definition assign_raw (this : fd) (raw : Z) (w : world) : outcome unit * fd * world :=
  match close_if_valid this w with
  | (Returned _, _, w') => (Returned tt, Build raw, w')
  | r => r
  end.

Definition destroy (this : fd) (w : world) : outcome unit * fd * world :=
  close_if_valid this w.

Definition release (this : fd) (w : world) : outcome Z * fd * world :=
  let tmp := handle this in
  let this := Build invalid in
  (Returned tmp, this, w).

Definition reset (this : fd) (raw : Z) (w : world) : outcome unit * fd * world :=
  match close_if_valid this w with
  | (Returned _, _, w') => (Returned tt, Build raw, w')
  | r => r
  end.

Definition reset_default (this : fd) : world -> outcome unit * fd * world :=
  reset this invalid.

Definition get (this : fd) : Z := handle this.
Definition to_int (this : fd) : Z := handle this.
Definition to_bool (this : fd) : bool := negb (handle this =? invalid).

Definition eqb (lhs rhs : fd) : bool := get lhs =? get rhs.
Definition neqb (lhs rhs : fd) : bool := negb (get lhs =? get rhs).

End FdStrict.

(* ================================================================== *)
(** * raii::mmap (first header) *)
(* ================================================================== *)

Module Mmap.
Import Cxx Posix.

Record mmap : Type := Build { address : Z; length : Z }.

Definition close (this : mmap) (w : world) : outcome unit * mmap * world :=
  if address this =? MAP_FAILED then (Returned tt, this, w)
  else
    match syscall (Munmap (address this) (length this)) w with
    | None => (Blocked, this, w)
    | Some (result, w') =>
        if ret result =? -1
        then (Thrown (SystemError (errno w') (Some "munmap"%string)), this, w')
        else (Returned tt, Build MAP_FAILED 0, w')
    end.

(** The statements of [mmap(raii::fd && fd, ...)] that follow the
    declaration of the local [handle]. *)
Definition from_fd_body (handle : Fd.fd) (protection flags offset : Z) (w : world)
  : outcome mmap * world :=
  match syscall (Fstat (Fd.to_int handle)) w with
  | None => (Blocked, w)
  | Some (info, w1) =>
      if ret info =? -1
      then (Thrown (SystemError (errno w1) (Some "fstat"%string)), w1)
      else
        let size := wrap U64 (st_size info) in
        match syscall (Mmap nullptr size protection flags (Fd.to_int handle) offset) w1 with
        | None => (Blocked, w1)
        | Some (m, w2) =>
            if ret m =? MAP_FAILED
            then (Thrown (SystemError (errno w2) (Some "mmap"%string)), w2)
            else (Returned (Build (ret m) size), w2)
        end
  end.

(** [mmap(raii::fd && fd, protection, flags, offset)]: result, what is
    left of the caller's [fd], world.  The local [handle] is
    move-constructed from [fd]; its destructor runs when the body is
    left, by its end or by an exception.  An exception leaving that
    destructor replaces a normal return and, while another exception is
    unwinding the stack, ends the program. *)
Definition construct_from_fd (fd : Fd.fd) (protection flags offset : Z) (w : world)
  : outcome mmap * Fd.fd * world :=
  let '(handle, fd) := Fd.move_construct fd in
  match from_fd_body handle protection flags offset w with
  | (Returned this, w1) =>
      match Fd.destroy handle w1 with
      | (Returned _, _, w2) => (Returned this, fd, w2)
      | (Thrown e, _, w2) => (Thrown e, fd, w2)
      | (Terminated, _, w2) => (Terminated, fd, w2)
      | (Blocked, _, w2) => (Blocked, fd, w2)
      end
  | (Thrown e, w1) =>
      match Fd.destroy handle w1 with
      | (Returned _, _, w2) => (Thrown e, fd, w2)
      | (Thrown _, _, w2) => (Terminated, fd, w2)
      | (Terminated, _, w2) => (Terminated, fd, w2)
      | (Blocked, _, w2) => (Blocked, fd, w2)
      end
  | (Terminated, w1) => (Terminated, fd, w1)
  | (Blocked, w1) => (Blocked, fd, w1)
  end.

(** [mmap(std::size_t length, protection, flags, offset)]. *)
Definition construct_anonymous (len protection flags offset : Z) (w : world)
  : outcome mmap * world :=
  match syscall (Mmap nullptr len protection (Z.lor flags MAP_ANONYMOUS) (-1) offset) w with
  | None => (Blocked, w)
  | Some (m, w1) =>
      if ret m =? MAP_FAILED
      then (Thrown (SystemError (errno w1) (Some "mmap"%string)), w1)
      else (Returned (Build (ret m) len), w1)
  end.

Definition move_construct (other : mmap) : mmap * mmap :=
  (Build (address other) (length other), Build MAP_FAILED 0).

Definition assign_move (this other : mmap) (w : world)
  : outcome unit * mmap * mmap * world :=
  match close this w with
  | (Returned _, _, w') =>
      (Returned tt, Build (address other) (length other), Build MAP_FAILED 0, w')
  | (o, this', w') => (o, this', other, w')
  end.

Definition destroy (this : mmap) (w : world) : outcome unit * mmap * world :=
  close this w.

Definition release (this : mmap) (w : world) : outcome (Z * Z) * mmap * world :=
  let value := (address this, length this) in
  let this := Build MAP_FAILED 0 in
  (Returned value, this, w).

Definition reset (this : mmap) (addr len : Z) (w : world) : outcome unit * mmap * world :=
  match close this w with
  | (Returned _, _, w') => (Returned tt, Build addr len, w')
  | r => r
  end.

(** [reset()], with the default arguments [address = nullptr] and
    [length = 0]. *)
Definition reset_default (this : mmap) : world -> outcome unit * mmap * world :=
  reset this nullptr 0.

Definition get (this : mmap) : Z := address this.
Definition to_ptr (this : mmap) : Z := address this.
Definition size (this : mmap) : Z := length this.
Definition to_bool (this : mmap) : bool := negb (address this =? MAP_FAILED).

Definition eqb (lhs rhs : mmap) : bool :=
  (get lhs =? get rhs) && (size lhs =? size rhs).
Definition neqb (lhs rhs : mmap) : bool :=
  negb (get lhs =? get rhs) || negb (size lhs =? size rhs).

(** The state in which a region owns nothing: what [close], [release]
    and a move leave behind. *)
Definition sentinel : mmap := Build MAP_FAILED 0.

End Mmap.

(* ================================================================== *)
(** * Notions used to state the properties *)
(* ================================================================== *)

Module Pow2.
Import Cxx Branchless.

Definition is_pow2 (v : Z) : Prop := exists k, 0 <= k /\ v = 2 ^ k.

(** What rounding up to a power of two asks of [roundup T v]: [v]
    itself when [v] is a power of two, the next higher power of two
    otherwise. *)
Definition roundup_claim (T : itype) (v : Z) : Prop :=
  (is_pow2 v -> power_of_2.roundup T v = v) /\
  (~ is_pow2 v ->
   is_pow2 (power_of_2.roundup T v) /\ v < power_of_2.roundup T v /\
   forall q, is_pow2 q -> v < q -> power_of_2.roundup T v <= q).

(** One step [s | (s >> m)] of the smearing sequence, and the five
    steps of [roundup], on unbounded integers. *)
Definition smear (s m : Z) : Z := Z.lor s (Z.shiftr s m).

Definition smear5 (x : Z) : Z :=
  smear (smear (smear (smear (smear x 1) 2) 4) 8) 16.

(** [filled k m s]: [s] fits in [k + 1] bits and its bits from [k]
    down to [k - m + 1] are set. *)
Definition filled (k m s : Z) : Prop :=
  0 <= s < 2 ^ (k + 1) /\
  forall i, 0 <= i <= k -> k - m < i -> Z.testbit s i = true.

End Pow2.

Module Runs.
Import Posix.

(** An answer of [::close] that makes the loop go round again. *)
Definition interrupted (r : reply) : Prop := ret r <> 0 /\ err r = EINTR.

(** The calls of [::close h] that received the answers [rs]. *)
Definition closes (h : Z) (rs : list reply) : list (call * reply) :=
  map (fun r => (Close h, r)) rs.

(** The constructor of a region from a handle came back to its caller:
    it returned, or it threw the error of [fstat] or of [mmap]. *)
Definition came_back {A : Type} (o : outcome A) : Prop :=
  match o with
  | Returned _ => True
  | Thrown e => what e = Some "fstat"%string \/ what e = Some "mmap"%string
  | Terminated | Blocked => False
  end.

(** The last call recorded in [w] is a [::close h] that returned 0. *)
Definition closed_last (h : Z) (w : world) : Prop :=
  exists tr r, trace w = tr ++ [(Close h, r)] /\ ret r = 0.

(** The strict header read as: every releasing operation applied to a
    sentinel handle throws the bad-descriptor error. *)
Definition strict_release_claim : Prop :=
  forall (other : FdStrict.fd) (raw : Z) (w : world),
    let this := FdStrict.Build FdStrict.invalid in
    let bad := SystemError EBADF FdStrict.label in
    fst (fst (fst (FdStrict.assign_move this other w))) = Thrown bad /\
    fst (fst (FdStrict.assign_raw this raw w)) = Thrown bad /\
    fst (fst (FdStrict.reset this raw w)) = Thrown bad /\
    fst (fst (FdStrict.destroy this w)) = Thrown bad.

End Runs.

Module Views.
Import Posix.

(** The handle of the first header seen as one of the second. *)
Definition to_strict (f : Fd.fd) : FdStrict.fd := FdStrict.Build (Fd.handle f).

(** An outcome with the label of a thrown error dropped. *)
Definition unlabel {A : Type} (o : outcome A) : outcome A :=
  match o with
  | Thrown e => Thrown (SystemError (code e) None)
  | _ => o
  end.

(** A region whose address is the failure marker has length 0. *)
Definition paired (m : Mmap.mmap) : Prop :=
  Mmap.address m = MAP_FAILED -> Mmap.length m = 0.


End Views.

(* ================================================================== *)
(** * Facts about bits of Z *)
(* ================================================================== *)

Module ZBits.

Lemma lt_pow2_land_ones (n a : Z) :
  0 <= n -> (0 <= a < 2 ^ n <-> Z.land a (Z.ones n) = a).
Proof.
  intros Hn. rewrite Z.land_ones by assumption. split.
  - intros H. now apply Z.mod_small.
  - intros H. rewrite <- H. apply Z.mod_pos_bound. now apply Z.pow_pos_nonneg.
Qed.

Lemma lxor_range (n a b : Z) :
  0 <= n -> 0 <= a < 2 ^ n -> 0 <= b < 2 ^ n -> 0 <= Z.lxor a b < 2 ^ n.
Proof.
  intros Hn Ha Hb.
  apply (lt_pow2_land_ones n) in Ha; [|assumption].
  apply (lt_pow2_land_ones n) in Hb; [|assumption].
  apply (lt_pow2_land_ones n); [assumption|].
  rewrite <- Ha at 2. rewrite <- Hb at 2.
  apply Z.bits_inj'. intros i _.
  rewrite Z.land_spec, !Z.lxor_spec, !Z.land_spec.
  destruct (Z.testbit a i), (Z.testbit b i), (Z.testbit (Z.ones n) i); reflexivity.
Qed.

Lemma lor_range (n a b : Z) :
  0 <= n -> 0 <= a < 2 ^ n -> 0 <= b < 2 ^ n -> 0 <= Z.lor a b < 2 ^ n.
Proof.
  intros Hn Ha Hb.
  apply (lt_pow2_land_ones n) in Ha; [|assumption].
  apply (lt_pow2_land_ones n) in Hb; [|assumption].
  apply (lt_pow2_land_ones n); [assumption|].
  rewrite Z.land_lor_distr_l. now rewrite Ha, Hb.
Qed.

Lemma shiftr_range (n a k : Z) :
  0 <= k -> 0 <= a < 2 ^ n -> 0 <= Z.shiftr a k < 2 ^ n.
Proof.
  intros Hk Ha. rewrite Z.shiftr_div_pow2 by assumption.
  assert (0 < 2 ^ k) by now apply Z.pow_pos_nonneg.
  split.
  - apply Z.div_pos; lia.
  - apply Z.le_lt_trans with a; [|lia].
    apply Z.div_le_upper_bound; nia.
Qed.

(** Two's-complement range is closed under exclusive or. *)
Lemma lxor_signed_range (n a b : Z) :
  0 <= n -> - 2 ^ n <= a < 2 ^ n -> - 2 ^ n <= b < 2 ^ n ->
  - 2 ^ n <= Z.lxor a b < 2 ^ n.
Proof.
  intros Hn Ha Hb.
  destruct (Z.neg_nonneg_cases a) as [Na | Na];
    destruct (Z.neg_nonneg_cases b) as [Nb | Nb].
  - (* both negative *)
    rewrite <- (Z.lxor_lnot_lnot a b).
    pose proof (Z.add_lnot_diag a). pose proof (Z.add_lnot_diag b).
    pose proof (lxor_range n (Z.lnot a) (Z.lnot b) Hn). lia.
  - replace (Z.lxor a b) with (Z.lnot (Z.lxor (Z.lnot a) b))
      by (rewrite Z.lnot_lxor_l, Z.lnot_involutive; reflexivity).
    pose proof (Z.add_lnot_diag a).
    pose proof (Z.add_lnot_diag (Z.lxor (Z.lnot a) b)).
    pose proof (lxor_range n (Z.lnot a) b Hn). lia.
  - replace (Z.lxor a b) with (Z.lnot (Z.lxor a (Z.lnot b)))
      by (rewrite Z.lnot_lxor_r, Z.lnot_involutive; reflexivity).
    pose proof (Z.add_lnot_diag b).
    pose proof (Z.add_lnot_diag (Z.lxor a (Z.lnot b))).
    pose proof (lxor_range n a (Z.lnot b) Hn). lia.
  - pose proof (lxor_range n a b Hn). lia.
Qed.

End ZBits.

Module ZPow2.
Import ZBits Pow2.

(** ** Powers of two *)

Lemma is_pow2_pos (v : Z) : is_pow2 v -> 0 < v.
Proof. intros [k [Hk ->]]. now apply Z.pow_pos_nonneg. Qed.

Lemma land_pred_pow2 (k : Z) : 0 <= k -> Z.land (2 ^ k - 1) (2 ^ k) = 0.
Proof.
  intros Hk. rewrite Z.land_comm.
  replace (2 ^ k - 1) with (Z.ones k) by (rewrite Z.ones_equiv; lia).
  rewrite Z.land_ones by assumption.
  apply Z_mod_same_full.
Qed.

Lemma land_pred_zero (v : Z) : 0 < v -> Z.land (v - 1) v = 0 -> v = 2 ^ Z.log2 v.
Proof.
  intros Hv H0.
  destruct (Z.log2_spec v Hv) as [Hlo Hhi].
  destruct (Z.eq_dec v (2 ^ Z.log2 v)) as [E | N]; [exact E | exfalso].
  assert (Hk : 0 <= Z.log2 v) by apply Z.log2_nonneg.
  assert (Hl : Z.log2 (v - 1) = Z.log2 v)
    by (apply Z.log2_unique; [assumption | lia]).
  assert (B1 : Z.testbit (v - 1) (Z.log2 v) = true)
    by (rewrite <- Hl; apply Z.bit_log2; lia).
  assert (B2 : Z.testbit v (Z.log2 v) = true) by (apply Z.bit_log2; lia).
  assert (B : Z.testbit (Z.land (v - 1) v) (Z.log2 v) = true)
    by (rewrite Z.land_spec, B1, B2; reflexivity).
  rewrite H0, Z.bits_0 in B. discriminate.
Qed.

Lemma land_pred_iff (v : Z) : 0 < v -> (Z.land (v - 1) v = 0 <-> is_pow2 v).
Proof.
  intros Hv. split.
  - intros H. exists (Z.log2 v). split; [apply Z.log2_nonneg|].
    now apply land_pred_zero.
  - intros [k [Hk ->]]. now apply land_pred_pow2.
Qed.

(** ** Smearing the highest set bit downwards *)

Lemma filled_log2 (x : Z) : 0 < x -> filled (Z.log2 x) 1 x.
Proof.
  intros Hx. destruct (Z.log2_spec x Hx) as [Hlo Hhi]. split.
  - replace (Z.log2 x + 1) with (Z.succ (Z.log2 x)) by lia. lia.
  - intros i Hi Hk. replace i with (Z.log2 x) by lia. now apply Z.bit_log2.
Qed.

Lemma filled_smear (k m s : Z) :
  0 <= k -> 0 < m -> filled k m s -> filled k (2 * m) (smear s m).
Proof.
  intros Hk Hm [Hr Hb]. unfold smear. split.
  - apply lor_range; [lia | assumption | apply shiftr_range; [lia | assumption]].
  - intros i Hi Hlow. rewrite Z.lor_spec, Z.shiftr_spec by lia.
    destruct (Z_lt_le_dec (k - m) i) as [Hin | Hout].
    + rewrite (Hb i) by lia. reflexivity.
    + rewrite (Hb (i + m)) by lia. apply orb_true_r.
Qed.

Lemma filled_all (k m s : Z) :
  0 <= k -> k < m -> filled k m s -> s = 2 ^ (k + 1) - 1.
Proof.
  intros Hk Hm [Hr Hb].
  replace (2 ^ (k + 1) - 1) with (Z.ones (k + 1)) by (rewrite Z.ones_equiv; lia).
  apply Z.bits_inj'. intros i Hi.
  destruct (Z_lt_le_dec k i) as [Hhi | Hlo].
  - rewrite Z.ones_spec_high by lia.
    rewrite <- (Z.mod_small s (2 ^ (k + 1))) by assumption.
    apply Z.mod_pow2_bits_high. lia.
  - rewrite Z.ones_spec_low by lia. apply Hb; lia.
Qed.

Lemma smear5_ones (x : Z) :
  0 < x < 2 ^ 32 -> smear5 x = 2 ^ (Z.log2 x + 1) - 1.
Proof.
  intros Hx.
  assert (Hk : 0 <= Z.log2 x) by apply Z.log2_nonneg.
  assert (Hk32 : Z.log2 x < 32) by (apply Z.log2_lt_pow2; lia).
  apply (filled_all (Z.log2 x) 32); [assumption | assumption |].
  unfold smear5.
  apply (filled_smear (Z.log2 x) 16); [assumption | lia |].
  apply (filled_smear (Z.log2 x) 8); [assumption | lia |].
  apply (filled_smear (Z.log2 x) 4); [assumption | lia |].
  apply (filled_smear (Z.log2 x) 2); [assumption | lia |].
  apply (filled_smear (Z.log2 x) 1); [assumption | lia |].
  apply filled_log2. lia.
Qed.

End ZPow2.

(* ================================================================== *)
(** * Facts about the integer model *)
(* ================================================================== *)

Module CxxFacts.
Import Cxx ZBits.

Lemma wrap_id (t : itype) (z : Z) : in_range t z -> wrap t z = z.
Proof.
  unfold in_range, min_of, max_of, wrap.
  destruct t; cbn; intros H; rewrite ?Z.mod_small by lia; lia.
Qed.

Lemma wrap_in_range (t : itype) (z : Z) : in_range t (wrap t z).
Proof.
  unfold in_range, min_of, max_of, wrap.
  destruct t; cbn;
    match goal with
    | |- context [?a mod ?m] => pose proof (Z.mod_pos_bound a m)
    end; lia.
Qed.

Lemma in_range_unsigned (t : itype) (z : Z) :
  is_signed t = false -> (in_range t z <-> 0 <= z < 2 ^ bits t).
Proof.
  unfold in_range, min_of, max_of. intros ->. lia.
Qed.

Lemma in_range_signed (t : itype) (z : Z) :
  is_signed t = true ->
  (in_range t z <-> - 2 ^ (bits t - 1) <= z < 2 ^ (bits t - 1)).
Proof.
  unfold in_range, min_of, max_of. intros ->. lia.
Qed.

Lemma bits_pos (t : itype) : 0 < bits t.
Proof. destruct t; reflexivity. Qed.

Lemma wrap_one (T : itype) : wrap T 1 = 1.
Proof. destruct T; reflexivity. Qed.

Lemma wrap_zero (T : itype) : wrap T 0 = 0.
Proof. destruct T; reflexivity. Qed.

(** Bitwise exclusive or stays within the type of its operands. *)
Lemma lxor_in_range (t : itype) (a b : Z) :
  in_range t a -> in_range t b -> in_range t (Z.lxor a b).
Proof.
  pose proof (bits_pos t) as Hb.
  destruct (is_signed t) eqn:S; intros Ha Hb'.
  - apply in_range_signed in Ha, Hb'; try assumption.
    apply in_range_signed; [assumption|].
    apply lxor_signed_range; lia.
  - apply in_range_unsigned in Ha, Hb'; try assumption.
    apply in_range_unsigned; [assumption|].
    apply lxor_range; lia.
Qed.

(** A value of a type keeps its value when promoted. *)
Lemma in_range_promote (t : itype) (z : Z) :
  in_range t z -> in_range (promote t) z.
Proof.
  unfold in_range, min_of, max_of. destruct t; cbn; lia.
Qed.

End CxxFacts.

(* ================================================================== *)
(** * Properties of branchless.hh *)
(* ================================================================== *)

Module BranchlessFacts.
Import Cxx ZBits CxxFacts Branchless Pow2 ZPow2 Branchless.power_of_2.

Lemma and_all_ones (t : itype) (a : Z) :
  in_range t a -> wrap t (Z.land a (wrap t (-1))) = a.
Proof.
  intros Ha.
  destruct (is_signed t) eqn:S.
  - replace (wrap t (-1)) with (-1) by (destruct t; try discriminate S; reflexivity).
    rewrite Z.land_m1_r. now apply wrap_id.
  - replace (wrap t (-1)) with (Z.ones (bits t))
      by (destruct t; try discriminate S; reflexivity).
    apply in_range_unsigned in Ha; [|assumption].
    pose proof (bits_pos t).
    rewrite Z.land_ones by lia. rewrite Z.mod_small by assumption.
    apply wrap_id. now apply in_range_unsigned.
Qed.

Lemma and_zero (t : itype) (a : Z) :
  wrap t (Z.land a (wrap t 0)) = 0.
Proof.
  replace (wrap t 0) with 0 by (destruct t; reflexivity).
  rewrite Z.land_0_r. destruct t; reflexivity.
Qed.

Lemma lxor_cancel_l (x y : Z) : Z.lxor y (Z.lxor x y) = x.
Proof.
  rewrite (Z.lxor_comm x y), <- Z.lxor_assoc, Z.lxor_nilpotent, Z.lxor_0_l.
  reflexivity.
Qed.

Lemma lxor_cancel_r (x y : Z) : Z.lxor x (Z.lxor x y) = y.
Proof.
  rewrite <- Z.lxor_assoc, Z.lxor_nilpotent, Z.lxor_0_l. reflexivity.
Qed.

Lemma common_self (T : itype) : common T T = promote T.
Proof. destruct T; reflexivity. Qed.

Lemma common_promote_int (T : itype) : common (promote T) I32 = promote T.
Proof. destruct T; reflexivity. Qed.

Lemma common_promote_r (T : itype) : common T (promote T) = promote T.
Proof. destruct T; reflexivity. Qed.

Ltac to_promoted T :=
  change (promote I32) with I32;
  rewrite ?common_self, ?common_promote_int, ?common_promote_r.

(** C9.  For each of the eight integer types and all values [x], [y] of
    the type, [min] gives [x] when [x < y] and [y] otherwise, [max] gives
    [y] when [x < y] and [x] otherwise; for equal arguments both give the
    common value. *)
Theorem min_max_spec (T : itype) (x y : Z) :
  in_range T x -> in_range T y ->
  min T x y = (if x <? y then x else y) /\
  max T x y = (if x <? y then y else x) /\
  (x = y -> min T x y = x /\ max T x y = x).
Proof.
  intros Hx Hy.
  pose proof (in_range_promote T x Hx) as Px.
  pose proof (in_range_promote T y Hy) as Py.
  pose proof (lxor_in_range _ _ _ Px Py) as Pxy.
  assert (Hmin : min T x y = (if x <? y then x else y) /\
                 max T x y = (if x <? y then y else x)).
  { unfold min, max, conv, xor, and, neg, lt, binop; cbn [type_of num].
    to_promoted T.
    rewrite !(wrap_id _ x Px), !(wrap_id _ y Py), !(wrap_id _ _ Pxy).
    destruct (x <? y).
    - change (wrap I32 (- wrap I32 1)) with (-1).
      rewrite (and_all_ones _ _ Pxy).
      rewrite !(wrap_id _ _ Pxy), lxor_cancel_l, lxor_cancel_r.
      rewrite !(wrap_id _ x Px), !(wrap_id _ y Py).
      rewrite (wrap_id _ x Hx), (wrap_id _ y Hy). split; reflexivity.
    - change (wrap I32 (- wrap I32 0)) with 0.
      rewrite and_zero, wrap_zero, !Z.lxor_0_r.
      rewrite !(wrap_id _ x Px), !(wrap_id _ y Py).
      rewrite (wrap_id _ x Hx), (wrap_id _ y Hy). split; reflexivity. }
  destruct Hmin as [Hmn Hmx]. split; [exact Hmn|]. split; [exact Hmx|].
  intros <-. rewrite Hmn, Hmx, Z.ltb_irrefl. split; reflexivity.
Qed.

Lemma min_max_spec_witness :
  min U64 18446744073709551615 3 = 3 /\
  max U64 18446744073709551615 3 = 18446744073709551615 /\
  min I8 (-128) (-128) = -128.
Proof.
  split; [|split].
  - refine (proj1 (min_max_spec U64 18446744073709551615 3 _ _));
      unfold in_range; cbn; lia.
  - refine (proj1 (proj2 (min_max_spec U64 18446744073709551615 3 _ _)));
      unfold in_range; cbn; lia.
  - refine (proj1 (proj2 (proj2 (min_max_spec I8 (-128) (-128) _ _)) eq_refl));
      unfold in_range; cbn; lia.
Defined.

Lemma mask_sign (T : itype) (v : Z) :
  is_signed T = true -> in_range T v ->
  mask T (sign_extend T v) = if v <? 0 then -1 else 0.
Proof.
  intros S Hv. unfold mask, hiword, sign_extend.
  pose proof (bits_pos T).
  rewrite Z.shiftr_div_pow2 by lia.
  apply in_range_signed in Hv; [|assumption].
  destruct (Z.ltb_spec v 0) as [Hneg | Hpos];
    destruct T; try discriminate S; cbn in Hv |- *;
    match goal with
    | |- context [(?a mod ?m) / ?d] =>
        (replace ((a mod m) / d) with (d - 1)
          by (Z.div_mod_to_equations; lia))
        || (replace ((a mod m) / d) with 0
          by (Z.div_mod_to_equations; lia))
    end; reflexivity.
Qed.

Lemma common_self_l (T : itype) : common (common T T) T = promote T.
Proof. destruct T; reflexivity. Qed.

Lemma abs_type (T : itype) (v : Z) : type_of (abs T v) = promote T.
Proof. unfold abs, sub, xor, binop; cbn [type_of]. apply common_self_l. Qed.

Lemma abs_nonneg (T : itype) (v : Z) :
  is_signed T = true -> in_range T v -> 0 <= v -> num (abs T v) = v.
Proof.
  intros S Hv Hpos.
  pose proof (in_range_promote T v Hv) as Pv.
  unfold abs. rewrite (mask_sign T v S Hv).
  destruct (Z.ltb_spec v 0) as [Hneg | _]; [lia|].
  unfold sub, xor, binop; cbn [type_of num].
  rewrite common_self_l, common_self.
  replace (wrap (promote T) 0) with 0 by (destruct T; reflexivity).
  rewrite !(wrap_id _ v Pv), Z.lxor_0_r, !(wrap_id _ v Pv), Z.sub_0_r.
  now apply wrap_id.
Qed.

Lemma abs_neg (T : itype) (v : Z) :
  is_signed T = true -> in_range T v -> v < 0 ->
  num (abs T v) = wrap (promote T) (- v).
Proof.
  intros S Hv Hneg.
  pose proof (in_range_promote T v Hv) as Pv.
  unfold abs. rewrite (mask_sign T v S Hv).
  destruct (Z.ltb_spec v 0) as [_ | Hpos]; [|lia].
  unfold sub, xor, binop; cbn [type_of num].
  rewrite common_self_l, common_self.
  replace (wrap (promote T) (-1)) with (-1)
    by (destruct T; try discriminate S; reflexivity).
  rewrite !(wrap_id _ v Pv), Z.lxor_m1_r.
  assert (Pn : in_range (promote T) (Z.lnot v)).
  { unfold Z.lnot. unfold in_range, min_of, max_of in *.
    destruct T; try discriminate S; cbn in *; lia. }
  rewrite !(wrap_id _ _ Pn). f_equal. unfold Z.lnot. lia.
Qed.

(** C8.  For each signed width (8, 16, 32, 64 bits) and every value
    [v] of it other than the most negative one, [abs] gives [v] when
    [0 <= v] and [- v] when [v < 0]. *)
Theorem abs_spec (T : itype) (v : Z) :
  is_signed T = true -> in_range T v -> v <> min_of T ->
  (0 <= v -> num (abs T v) = v) /\ (v < 0 -> num (abs T v) = - v).
Proof.
  intros S Hv Hmin. split.
  - now apply abs_nonneg.
  - intros Hneg. rewrite abs_neg by assumption.
    apply wrap_id. unfold in_range, min_of, max_of in *.
    destruct T; try discriminate S; cbn in *; lia.
Qed.

Lemma abs_spec_witness :
  num (abs I64 (-9223372036854775807)) = 9223372036854775807.
Proof.
  refine (proj2 (abs_spec I64 (-9223372036854775807) eq_refl _ _) _).
  - unfold in_range; cbn; lia.
  - discriminate.
  - reflexivity.
Defined.

(** C10.  On the most negative value the result depends on the width:
    for 8 and 16 bits the exclusive or and the subtraction are done on
    [int], and the result is the [int] 128, respectively 32768; for 32
    and 64 bits the subtraction wraps and the result is the most negative
    value again. *)
Theorem abs_most_negative :
  min_of I8 = -128 /\ abs I8 (min_of I8) = Val I32 128 /\
  min_of I16 = -32768 /\ abs I16 (min_of I16) = Val I32 32768 /\
  abs I32 (min_of I32) = Val I32 (min_of I32) /\
  abs I64 (min_of I64) = Val I64 (min_of I64).
Proof. repeat split; reflexivity. Qed.

Lemma land_range (n a b : Z) :
  0 <= n -> 0 <= a < 2 ^ n -> 0 <= b -> 0 <= Z.land a b < 2 ^ n.
Proof.
  intros Hn Ha Hb.
  apply (lt_pow2_land_ones n) in Ha; [|assumption].
  apply (lt_pow2_land_ones n); [assumption|].
  rewrite <- Ha at 2.
  apply Z.bits_inj'. intros i _.
  rewrite !Z.land_spec.
  destruct (Z.testbit a i), (Z.testbit b i), (Z.testbit (Z.ones n) i); reflexivity.
Qed.

Lemma wrap_promote (T : itype) (z : Z) :
  is_signed T = false -> -1 <= z <= 2 ^ bits T ->
  wrap T (wrap (promote T) z) = wrap T z.
Proof.
  intros S Hz. destruct T; try discriminate S; cbn [promote bits] in *.
  - rewrite (wrap_id I32); [reflexivity|]. unfold in_range; cbn. cbn in Hz. lia.
  - rewrite (wrap_id I32); [reflexivity|]. unfold in_range; cbn. cbn in Hz. lia.
  - apply wrap_id, wrap_in_range.
  - apply wrap_id, wrap_in_range.
Qed.

Lemma common_int (T : itype) : common T I32 = promote T.
Proof. destruct T; reflexivity. Qed.

Lemma common_promote_l (T : itype) : common (promote T) T = promote T.
Proof. destruct T; reflexivity. Qed.

Lemma dec_pos (T : itype) (v : Z) :
  is_signed T = false -> in_range T v -> 0 < v -> dec T v = v - 1.
Proof.
  intros S Hv Hpos.
  pose proof (in_range_promote T v Hv) as Pv.
  unfold dec, conv, sub, lit, binop; cbn [type_of num].
  rewrite common_int, (wrap_id _ v Pv), wrap_one.
  apply in_range_unsigned in Hv; [|assumption].
  rewrite wrap_promote by (assumption || lia).
  apply wrap_id. apply in_range_unsigned; [assumption | lia].
Qed.

Lemma inc_wrap (T : itype) (s : Z) :
  is_signed T = false -> in_range T s -> inc T s = wrap T (s + 1).
Proof.
  intros S Hs.
  pose proof (in_range_promote T s Hs) as Ps.
  unfold inc, conv, add, lit, binop; cbn [type_of num].
  rewrite common_int, (wrap_id _ s Ps), wrap_one.
  apply in_range_unsigned in Hs; [|assumption].
  apply wrap_promote; [assumption | lia].
Qed.

Lemma or_shr_smear (T : itype) (s n : Z) :
  is_signed T = false -> in_range T s -> 0 <= n ->
  or_shr T s n = smear s n /\ in_range T (smear s n).
Proof.
  intros S Hs Hn.
  pose proof (in_range_promote T s Hs) as Ps.
  pose proof (bits_pos T) as Hb.
  assert (Hu := Hs). apply in_range_unsigned in Hu; [|assumption].
  assert (Hsh : 0 <= Z.shiftr s n < 2 ^ bits T) by (apply shiftr_range; lia).
  assert (Hor : 0 <= smear s n < 2 ^ bits T) by (apply lor_range; lia).
  assert (Rsh : in_range T (Z.shiftr s n)) by now apply in_range_unsigned.
  assert (Ror : in_range T (smear s n)) by now apply in_range_unsigned.
  split; [|assumption].
  unfold or_shr, conv, or, shr, binop; cbn [type_of num].
  rewrite common_promote_r, !(wrap_id _ s Ps).
  rewrite !(wrap_id _ _ (in_range_promote _ _ Rsh)).
  fold (smear s n).
  rewrite (wrap_id _ _ (in_range_promote _ _ Ror)).
  now apply wrap_id.
Qed.

Lemma roundup_smear5 (T : itype) (v : Z) :
  is_signed T = false -> in_range T v -> 0 < v ->
  roundup T v = wrap T (smear5 (v - 1) + 1).
Proof.
  intros S Hv Hpos. unfold roundup, smear5.
  rewrite (dec_pos T v S Hv Hpos).
  assert (H0 : in_range T (v - 1)).
  { apply in_range_unsigned in Hv; [|assumption].
    apply in_range_unsigned; [assumption | lia]. }
  destruct (or_shr_smear T _ 1 S H0) as [-> H1]; [lia|].
  destruct (or_shr_smear T _ 2 S H1) as [-> H2]; [lia|].
  destruct (or_shr_smear T _ 4 S H2) as [-> H3]; [lia|].
  destruct (or_shr_smear T _ 8 S H3) as [-> H4]; [lia|].
  destruct (or_shr_smear T _ 16 S H4) as [-> H5]; [lia|].
  now apply inc_wrap.
Qed.

Lemma smear5_log2_up (v : Z) :
  0 < v <= 2 ^ 32 -> smear5 (v - 1) + 1 = 2 ^ Z.log2_up v.
Proof.
  intros Hv. destruct (Z.eq_dec v 1) as [-> | N].
  - reflexivity.
  - rewrite smear5_ones by lia.
    rewrite Z.log2_up_eqn by lia.
    replace (Z.pred v) with (v - 1) by lia.
    replace (Z.succ (Z.log2 (v - 1))) with (Z.log2 (v - 1) + 1) by lia.
    lia.
Qed.

Lemma pow2_log2_up_least (v q : Z) :
  0 < v -> is_pow2 q -> v <= q -> 2 ^ Z.log2_up v <= q.
Proof.
  intros Hv [j [Hj ->]] Hle.
  apply Z.pow_le_mono_r; [lia|].
  now apply Z.log2_up_le_pow2.
Qed.

Lemma pow2_log2_up_ge (v : Z) : 0 < v -> v <= 2 ^ Z.log2_up v.
Proof. intros Hv. now apply Z.log2_log2_up_spec. Qed.

Lemma roundup_in_range (T : itype) (v : Z) :
  is_signed T = false -> 0 < v <= 2 ^ (bits T - 1) -> v <= 2 ^ 32 ->
  roundup T v = 2 ^ Z.log2_up v.
Proof.
  intros S Hv H32.
  pose proof (bits_pos T) as Hb.
  assert (Hlt : 2 ^ (bits T - 1) < 2 ^ bits T)
    by (apply Z.pow_lt_mono_r; lia).
  assert (Rv : in_range T v) by (apply in_range_unsigned; [assumption | lia]).
  rewrite roundup_smear5 by (assumption || lia).
  rewrite smear5_log2_up by lia.
  apply wrap_id. apply in_range_unsigned; [assumption|].
  assert (0 < 2 ^ Z.log2_up v) by (apply Z.pow_pos_nonneg; [lia | apply Z.log2_up_nonneg]).
  assert (2 ^ Z.log2_up v <= 2 ^ (bits T - 1)).
  { apply pow2_log2_up_least; [lia | | lia]. exists (bits T - 1). split; [lia | reflexivity]. }
  lia.
Qed.

Lemma roundup_wraps (T : itype) (v : Z) :
  is_signed T = false -> bits T <= 32 -> 2 ^ (bits T - 1) < v < 2 ^ bits T ->
  roundup T v = 0.
Proof.
  intros S H32 Hv.
  pose proof (bits_pos T) as Hb.
  assert (0 < 2 ^ (bits T - 1)) by (apply Z.pow_pos_nonneg; lia).
  assert (2 ^ bits T <= 2 ^ 32) by (apply Z.pow_le_mono_r; lia).
  assert (Rv : in_range T v) by (apply in_range_unsigned; [assumption | lia]).
  rewrite roundup_smear5 by (assumption || lia).
  rewrite smear5_log2_up by lia.
  replace (Z.log2_up v) with (bits T).
  - destruct T; try discriminate S; reflexivity.
  - symmetry. apply Z.le_antisymm.
    + apply Z.log2_up_le_pow2; lia.
    + destruct (Z_lt_le_dec (Z.log2_up v) (bits T)) as [Hlt | Hge]; [|assumption].
      exfalso.
      assert (Z.log2_up v <= bits T - 1) as Hle by lia.
      apply Z.log2_up_le_pow2 in Hle; lia.
Qed.

Lemma not_pow2_between (k v : Z) : 0 <= k -> 2 ^ k < v < 2 ^ (k + 1) -> ~ is_pow2 v.
Proof.
  intros Hk Hv [j [Hj E]]. subst v.
  destruct Hv as [H1 H2].
  apply Z.pow_lt_mono_r_iff in H1; [|lia|lia].
  apply Z.pow_lt_mono_r_iff in H2; [|lia|lia]. lia.
Qed.

(** C1 as the specification states it, for every unsigned type and
    every [v > 0], does not hold.  The 32-bit value [2 ^ 31 + 1] is not a
    power of two, and no power of two above it fits in 32 bits: [roundup]
    gives 0. *)
Lemma roundup_claim_fails :
  ~ (forall (T : itype) (v : Z),
        is_signed T = false -> in_range T v -> 0 < v -> roundup_claim T v).
Proof.
  intros H.
  assert (R : in_range U32 2147483649) by (unfold in_range; cbn; lia).
  destruct (H U32 2147483649 eq_refl R eq_refl) as [_ C].
  assert (N : ~ is_pow2 2147483649)
    by (apply (not_pow2_between 31); [lia | cbn; lia]).
  destruct (C N) as [_ [Hlt _]]. vm_compute in Hlt. discriminate Hlt.
Qed.

(** C1, amended.  For an unsigned type of [w] bits and a value [v > 0]
    of it: when [v <= 2 ^ (w - 1)] and [v <= 2 ^ 32], [roundup] gives [v]
    if [v] is a power of two and the next higher power of two otherwise;
    when [w <= 32] and [v > 2 ^ (w - 1)] the final increment wraps and
    [roundup] gives 0. *)
Theorem roundup_spec (T : itype) (v : Z) :
  is_signed T = false -> in_range T v -> 0 < v ->
  (v <= 2 ^ (bits T - 1) -> v <= 2 ^ 32 -> roundup_claim T v) /\
  (bits T <= 32 -> 2 ^ (bits T - 1) < v -> roundup T v = 0).
Proof.
  intros S Rv Hpos. split.
  - intros Hhalf H32.
    pose proof (roundup_in_range T v S (conj Hpos Hhalf) H32) as Hr.
    unfold roundup_claim. rewrite Hr. split.
    + intros [j [Hj ->]]. now rewrite Z.log2_up_pow2.
    + intros Hn.
      assert (Hp : is_pow2 (2 ^ Z.log2_up v))
        by (exists (Z.log2_up v); split; [apply Z.log2_up_nonneg | reflexivity]).
      pose proof (pow2_log2_up_ge v Hpos) as Hge.
      split; [assumption|]. split.
      * destruct (Z.eq_dec v (2 ^ Z.log2_up v)) as [E | N]; [|lia].
        exfalso. apply Hn. rewrite E. assumption.
      * intros q Hq Hlt. apply pow2_log2_up_least; [assumption | assumption | lia].
  - intros H32 Hhalf. apply roundup_wraps; [assumption | assumption |].
    apply in_range_unsigned in Rv; [|assumption]. lia.
Qed.

Lemma roundup_spec_witness :
  roundup_claim U64 4294967295 /\ roundup U16 40000 = 0.
Proof.
  split.
  - refine (proj1 (roundup_spec U64 4294967295 eq_refl _ eq_refl) _ _).
    + unfold in_range; cbn; lia.
    + cbn; lia.
    + cbn; lia.
  - refine (proj2 (roundup_spec U16 40000 eq_refl _ eq_refl) _ _).
    + unfold in_range; cbn; lia.
    + cbn; lia.
    + cbn; lia.
Defined.

(** With 64 bits the five shifts do not reach below bit 1 of
    [2 ^ 32]: the value [2 ^ 32 + 1] is rounded to [2 ^ 33 - 1], which
    is not a power of two. *)
Lemma roundup_u64_stops_at_shift_16 :
  roundup U64 (2 ^ 32 + 1) = 2 ^ 33 - 1 /\
  isa U64 (roundup U64 (2 ^ 32 + 1)) = false /\
  ~ roundup_claim U64 (2 ^ 32 + 1).
Proof.
  split; [reflexivity|]. split; [reflexivity|].
  intros [_ C].
  assert (N : ~ is_pow2 (2 ^ 32 + 1))
    by (apply (not_pow2_between 32); [lia | cbn; lia]).
  destruct (C N) as [P _].
  revert P. apply (not_pow2_between 32); [lia | vm_compute; split; reflexivity].
Qed.

Lemma isa_pos (T : itype) (v : Z) :
  is_signed T = false -> in_range T v -> 0 < v ->
  isa T v = (Z.land (v - 1) v =? 0).
Proof.
  intros S Hv Hpos.
  pose proof (in_range_promote T v Hv) as Pv.
  pose proof (bits_pos T) as Hb.
  assert (Hu := Hv). apply in_range_unsigned in Hu; [|assumption].
  assert (R1 : in_range T (v - 1)) by (apply in_range_unsigned; [assumption | lia]).
  assert (R2 : in_range T (Z.land (v - 1) v)).
  { apply in_range_unsigned; [assumption|]. apply land_range; lia. }
  unfold isa, eq, and, sub, lit, binop; cbn [type_of num].
  rewrite !(common_int T), !common_promote_l, !common_promote_int.
  rewrite wrap_one, wrap_zero, !(wrap_id _ v Pv).
  rewrite !(wrap_id _ _ (in_range_promote _ _ R1)).
  rewrite !(wrap_id _ _ (in_range_promote _ _ R2)).
  reflexivity.
Qed.

(** C4.  For an unsigned type of [w] bits and every value [v] of it,
    [isa] answers [true] exactly when [v] is 0 or one of the powers of
    two [2 ^ 0], ..., [2 ^ (w - 1)]. *)
Theorem isa_spec (T : itype) (v : Z) :
  is_signed T = false -> in_range T v ->
  (isa T v = true <-> v = 0 \/ exists k, 0 <= k < bits T /\ v = 2 ^ k).
Proof.
  intros S Hv.
  assert (Hu := Hv). apply in_range_unsigned in Hu; [|assumption].
  destruct (Z.eq_dec v 0) as [-> | N].
  - split; [now left|]. intros _. destruct T; try discriminate S; reflexivity.
  - rewrite isa_pos by (assumption || lia).
    rewrite Z.eqb_eq, land_pred_iff by lia. split.
    + intros [k [Hk E]]. right. exists k. split; [|assumption].
      split; [assumption|]. subst v. pose proof (bits_pos T).
      apply (Z.pow_lt_mono_r_iff 2); lia.
    + intros [E | [k [Hk E]]]; [contradiction|].
      exists k. split; [lia | assumption].
Qed.

Lemma isa_spec_witness :
  (isa U64 0 = true <-> 0 = 0 \/ exists k, 0 <= k < 64 /\ 0 = 2 ^ k) /\
  (isa U8 128 = true <-> 128 = 0 \/ exists k, 0 <= k < 8 /\ 128 = 2 ^ k) /\
  (isa U8 6 = true <-> 6 = 0 \/ exists k, 0 <= k < 8 /\ 6 = 2 ^ k).
Proof.
  split; [|split].
  - refine (isa_spec U64 0 eq_refl _). unfold in_range; cbn; lia.
  - refine (isa_spec U8 128 eq_refl _). unfold in_range; cbn; lia.
  - refine (isa_spec U8 6 eq_refl _). unfold in_range; cbn; lia.
Defined.

End BranchlessFacts.

(* ================================================================== *)
(** * Properties of the RAII wrappers *)
(* ================================================================== *)

Module RaiiFacts.
Import Posix Runs.

(** ** The retry loop *)

Lemma close_loop_run (label : option string) (h : Z) (ints : list reply)
      (r : reply) (rs p : list reply) (e : Z) (tr : list (call * reply)) :
  Forall interrupted ints -> ~ interrupted r ->
  close_loop label h (ints ++ r :: rs) (World p e tr) =
  (if ret r =? 0 then Returned tt else Thrown (SystemError (err r) label),
   World rs (err r) (tr ++ closes h (ints ++ [r]))).
Proof.
  intros Hints Hr. revert p e tr.
  induction Hints as [| i ints [Hret Herr] _ IH]; intros p e tr.
  - cbn. unfold answer; cbn.
    destruct (Z.eqb_spec (ret r) 0) as [E | N]; [reflexivity|].
    destruct (Z.eqb_spec (err r) EINTR) as [E' | N']; [|reflexivity].
    exfalso. apply Hr. split; assumption.
  - cbn. unfold answer; cbn.
    destruct (Z.eqb_spec (ret i) 0) as [E | _]; [contradiction|].
    rewrite Herr, Z.eqb_refl, IH, <- app_assoc. reflexivity.
Qed.

(** As long as every answer is an interruption the loop goes on. *)
Lemma close_loop_blocked (label : option string) (h : Z) (ints : list reply)
      (w : world) :
  Forall interrupted ints ->
  fst (close_loop label h ints w) = Blocked.
Proof.
  intros Hints. revert w.
  induction Hints as [| i ints [Hret Herr] _ IH]; intros w.
  - reflexivity.
  - cbn. destruct (Z.eqb_spec (ret i) 0) as [E | _]; [contradiction|].
    rewrite Herr, Z.eqb_refl. apply IH.
Qed.

(** A loop that is left normally ends on a [::close] that returned 0. *)
Lemma close_loop_returned (label : option string) (h : Z) (rs : list reply)
      (w w' : world) (u : unit) :
  close_loop label h rs w = (Returned u, w') -> closed_last h w'.
Proof.
  revert w. induction rs as [| r rs IH]; intros w H.
  - discriminate H.
  - cbn in H. destruct (Z.eqb_spec (ret r) 0) as [E | N].
    + injection H as _ <-. exists (trace w), r. split; [reflexivity | assumption].
    + destruct (err r =? EINTR).
      * apply (IH _ H).
      * discriminate H.
Qed.

Lemma fd_close_returned (this this' : Fd.fd) (w w' : world) (u : unit) :
  Fd.handle this <> Fd.invalid ->
  Fd.close this w = (Returned u, this', w') -> closed_last (Fd.handle this) w'.
Proof.
  intros Hh H. unfold Fd.close in H.
  destruct (Z.eqb_spec (Fd.handle this) Fd.invalid) as [E | _]; [contradiction|].
  destruct (close_loop Fd.label (Fd.handle this) (pending w) w) as [o w1] eqn:L.
  destruct o; try discriminate H.
  injection H as _ _ <-. destruct a. apply (close_loop_returned _ _ _ _ _ _ L).
Qed.

Lemma close_loop_thrown (label : option string) (h : Z) (rs : list reply)
      (w w' : world) (e : system_error) :
  close_loop label h rs w = (Thrown e, w') -> what e = label.
Proof.
  revert w. induction rs as [| r rs IH]; intros w H.
  - discriminate H.
  - cbn in H. destruct (ret r =? 0); [discriminate H|].
    destruct (err r =? EINTR).
    + apply (IH _ H).
    + injection H as <- _. reflexivity.
Qed.

Lemma fd_close_thrown (this this' : Fd.fd) (w w' : world) (e : system_error) :
  Fd.close this w = (Thrown e, this', w') -> what e = Fd.label.
Proof.
  intros H. unfold Fd.close in H.
  destruct (Fd.handle this =? Fd.invalid); [discriminate H|].
  destruct (close_loop Fd.label (Fd.handle this) (pending w) w) as [o w1] eqn:L.
  destruct o; try discriminate H.
  injection H as <- _ _. apply (close_loop_thrown _ _ _ _ _ _ L).
Qed.

(** Whatever the constructor does, the caller's handle is left as the
    sentinel. *)
Lemma construct_from_fd_arg (fd : Fd.fd) (protection flags offset : Z) (w : world) :
  snd (fst (Mmap.construct_from_fd fd protection flags offset w)) =
  Fd.Build Fd.invalid.
Proof.
  unfold Mmap.construct_from_fd; cbn [Fd.move_construct].
  destruct (Mmap.from_fd_body _ protection flags offset w) as [[m | e | |] w1];
    try reflexivity;
    destruct (Fd.destroy _ w1) as [[[u | e' | |] f1] w2]; reflexivity.
Qed.

(** ** Release, construction from a handle, reset *)

(** C5.  For a handle other than the sentinel, [fd::close] of either
    header calls [::close] again after every answer that reports an
    interruption ([EINTR]); at the first other answer it stops: if that
    answer is 0 the handle becomes the sentinel and the call returns,
    otherwise the call throws a [system_error] carrying the [errno] of
    that answer and the handle is kept.  The trace shows one [::close] of
    the same handle per answer consumed. *)
Theorem close_retry_loop (h : Z) (ints : list reply) (r : reply)
        (rs : list reply) (e : Z) (tr : list (call * reply)) :
  h <> -1 -> Forall interrupted ints -> ~ interrupted r ->
  let w := World (ints ++ r :: rs) e tr in
  let w' := World rs (err r) (tr ++ closes h (ints ++ [r])) in
  Fd.close (Fd.Build h) w =
    (if ret r =? 0
     then (Returned tt, Fd.Build Fd.invalid, w')
     else (Thrown (SystemError (err r) (Some "close"%string)), Fd.Build h, w')) /\
  FdStrict.close (FdStrict.Build h) w =
    (if ret r =? 0
     then (Returned tt, FdStrict.Build FdStrict.invalid, w')
     else (Thrown (SystemError (err r) None), FdStrict.Build h, w')).
Proof.
  intros Hh Hints Hr w w'. subst w w'.
  unfold Fd.close, FdStrict.close; cbn [Fd.handle FdStrict.handle pending].
  unfold Fd.invalid, FdStrict.invalid.
  destruct (Z.eqb_spec h (-1)) as [E | _]; [contradiction|].
  rewrite !close_loop_run by assumption.
  destruct (ret r =? 0); split; reflexivity.
Qed.

Lemma close_retry_loop_witness :
  Fd.close (Fd.Build 3)
           (World [Reply (-1) 4 0; Reply (-1) 4 0; Reply 0 0 0; Reply 7 7 7] 0 []) =
    (Returned tt, Fd.Build (-1),
     World [Reply 7 7 7] 0
           [(Close 3, Reply (-1) 4 0); (Close 3, Reply (-1) 4 0);
            (Close 3, Reply 0 0 0)]) /\
  FdStrict.close (FdStrict.Build 3)
           (World [Reply (-1) 4 0; Reply (-1) 5 0; Reply 7 7 7] 0 []) =
    (Thrown (SystemError 5 None), FdStrict.Build 3,
     World [Reply 7 7 7] 5
           [(Close 3, Reply (-1) 4 0); (Close 3, Reply (-1) 5 0)]).
Proof.
  split.
  - refine (proj1 (close_retry_loop 3 [Reply (-1) 4 0; Reply (-1) 4 0]
                                    (Reply 0 0 0) [Reply 7 7 7] 0 [] _ _ _)).
    + discriminate.
    + repeat constructor; discriminate.
    + intros [H _]. apply H. reflexivity.
  - refine (proj2 (close_retry_loop 3 [Reply (-1) 4 0]
                                    (Reply (-1) 5 0) [Reply 7 7 7] 0 [] _ _ _)).
    + discriminate.
    + repeat constructor; discriminate.
    + intros [_ H]. discriminate H.
Defined.

(** C6.  When [mmap(raii::fd && fd, ...)] comes back to its caller, by
    returning or by throwing the error of [fstat] or of [mmap], the
    caller's [fd] is the sentinel, and a handle that was not the
    sentinel has been closed: the last system call made is a [::close]
    of it that returned 0.  The region built holds an address and a
    length, no handle. *)
Theorem construct_from_fd_consumes
        (fd : Fd.fd) (protection flags offset : Z) (w : world)
        (o : outcome Mmap.mmap) (fd' : Fd.fd) (w' : world) :
  Mmap.construct_from_fd fd protection flags offset w = (o, fd', w') ->
  came_back o ->
  fd' = Fd.Build Fd.invalid /\
  Fd.to_bool fd' = false /\
  (Fd.handle fd <> Fd.invalid -> closed_last (Fd.handle fd) w').
Proof.
  intros H Hback. destruct fd as [h].
  pose proof (construct_from_fd_arg (Fd.Build h) protection flags offset w) as Harg.
  rewrite H in Harg; cbn in Harg. subst fd'.
  split; [reflexivity|]. split; [reflexivity|]. intros Hh.
  unfold Mmap.construct_from_fd in H; cbn [Fd.move_construct] in H.
  destruct (Mmap.from_fd_body _ protection flags offset w) as [[m | e | |] w1];
    [ | | injection H as <- _; contradiction | injection H as <- _; contradiction ];
    cbn [Fd.handle] in H;
    destruct (Fd.destroy (Fd.Build h) w1) as [[[u | e' | |] f1] w2] eqn:D;
    injection H as <- <-; try contradiction.
  - apply (fd_close_returned _ _ _ _ _ Hh D).
  - apply fd_close_thrown in D. cbn in Hback. rewrite D in Hback.
    destruct Hback as [C | C]; discriminate C.
  - apply (fd_close_returned _ _ _ _ _ Hh D).
Qed.

Lemma construct_from_fd_consumes_witness :
  let w := World [Reply 0 0 4096; Reply 139637976727552 0 0; Reply 0 0 0] 0 [] in
  let '(o, fd', w') := Mmap.construct_from_fd (Fd.Build 3) 1 2 0 w in
  o = Returned (Mmap.Build 139637976727552 4096) /\
  came_back o /\
  fd' = Fd.Build Fd.invalid /\
  Fd.to_bool fd' = false /\
  closed_last 3 w'.
Proof.
  cbv zeta.
  pose proof (construct_from_fd_consumes (Fd.Build 3) 1 2 0
    (World [Reply 0 0 4096; Reply 139637976727552 0 0; Reply 0 0 0] 0 [])) as T.
  destruct (Mmap.construct_from_fd (Fd.Build 3) 1 2 0
    (World [Reply 0 0 4096; Reply 139637976727552 0 0; Reply 0 0 0] 0 []))
    as [[o fd'] w'] eqn:E.
  vm_compute in E. injection E as <- <- <-.
  specialize (T _ _ _ eq_refl I). destruct T as [T1 [T2 T3]].
  split; [reflexivity|]. split; [exact I|]. split; [exact T1|].
  split; [exact T2|]. apply T3. discriminate.
Defined.


(** The same constructor when [fstat] fails: the error of [fstat] comes
    out and the handle has been closed on the way. *)
Example construct_from_fd_fstat_fails :
  Mmap.construct_from_fd (Fd.Build 3) 1 2 0
                         (World [Reply (-1) 5 0; Reply 0 0 0] 0 []) =
  (Thrown (SystemError 5 (Some "fstat"%string)), Fd.Build (-1),
   World [] 0 [(Fstat 3, Reply (-1) 5 0); (Close 3, Reply 0 0 0)]).
Proof. reflexivity. Qed.

(** C7.  [release()] of either [fd] and of [mmap] returns, in every
    state, the value owned before the call, leaves the sentinel, which
    converts to [false], and leaves the world as it was: no system call
    is made. *)
Theorem release_spec (f : Fd.fd) (g : FdStrict.fd) (m : Mmap.mmap) (w : world) :
  Fd.release f w = (Returned (Fd.handle f), Fd.Build Fd.invalid, w) /\
  FdStrict.release g w =
    (Returned (FdStrict.handle g), FdStrict.Build FdStrict.invalid, w) /\
  Mmap.release m w =
    (Returned (Mmap.address m, Mmap.length m), Mmap.sentinel, w) /\
  Fd.to_bool (Fd.Build Fd.invalid) = false /\
  FdStrict.to_bool (FdStrict.Build FdStrict.invalid) = false /\
  Mmap.to_bool Mmap.sentinel = false.
Proof. repeat split. Qed.

(** C2 as the specification states it does not hold: [reset] of a
    sentinel handle returns. *)
Lemma strict_release_claim_fails : ~ strict_release_claim.
Proof.
  intros H.
  destruct (H (FdStrict.Build 7) 5 (World [] 0 [])) as [_ [_ [R _]]].
  discriminate R.
Qed.

(** C2, amended.  In the strict header [fd::close] throws the
    bad-descriptor error on a sentinel handle, but move-assignment,
    assignment of a raw value, [reset] and the destructor call it only
    when the handle is not the sentinel: on a sentinel handle they
    return, make no system call, and the first three adopt the new
    value. *)
Theorem strict_close_is_guarded (other : FdStrict.fd) (raw : Z) (w : world) :
  let this := FdStrict.Build FdStrict.invalid in
  FdStrict.close this w = (Thrown (SystemError EBADF None), this, w) /\
  FdStrict.assign_move this other w =
    (Returned tt, FdStrict.Build (FdStrict.handle other),
     FdStrict.Build FdStrict.invalid, w) /\
  FdStrict.assign_raw this raw w = (Returned tt, FdStrict.Build raw, w) /\
  FdStrict.reset this raw w = (Returned tt, FdStrict.Build raw, w) /\
  FdStrict.destroy this w = (Returned tt, this, w).
Proof. repeat split. Qed.

(** C3.  [reset()] with its default arguments, whenever it returns,
    leaves the null address and length 0, which is not the sentinel:
    the conversion to [bool] answers [true], and the destructor goes on
    to call [::munmap] on the null address. *)
Theorem reset_default_is_not_sentinel :
  (forall (this : Mmap.mmap) (w : world),
      match Mmap.reset_default this w with
      | (Returned _, this', _) =>
          this' = Mmap.Build nullptr 0 /\ this' <> Mmap.sentinel /\
          Mmap.to_bool this' = true
      | _ => True
      end) /\
  Mmap.reset_default (Mmap.Build 4096 8192) (World [Reply 0 0 0; Reply (-1) 22 0] 0 []) =
    (Returned tt, Mmap.Build 0 0,
     World [Reply (-1) 22 0] 0 [(Munmap 4096 8192, Reply 0 0 0)]) /\
  Mmap.destroy (Mmap.Build 0 0)
               (World [Reply (-1) 22 0] 0 [(Munmap 4096 8192, Reply 0 0 0)]) =
    (Thrown (SystemError 22 (Some "munmap"%string)), Mmap.Build 0 0,
     World [] 22 [(Munmap 4096 8192, Reply 0 0 0); (Munmap 0 0, Reply (-1) 22 0)]).
Proof.
  split; [|split; reflexivity].
  intros this w. unfold Mmap.reset_default, Mmap.reset.
  destruct (Mmap.close this w) as [[[u | e | |] t] w1]; try exact I.
  split; [reflexivity|]. split; [discriminate | reflexivity].
Qed.

End RaiiFacts.

(* ================================================================== *)
(** * Further properties of branchless.hh *)
(* ================================================================== *)

Module BranchlessMore.
Import Cxx ZBits CxxFacts Branchless Pow2 ZPow2 Branchless.power_of_2 BranchlessFacts.

(** ** The mask helpers *)

Lemma isa_minus_1_land (T : itype) (v : Z) :
  is_signed T = false -> in_range T v ->
  isa_minus_1 T v = (Z.land v (wrap (promote T) (v + 1)) =? 0).
Proof.
  intros S Hv.
  pose proof (in_range_promote T v Hv) as Pv.
  pose proof (bits_pos T) as Hb.
  assert (Hu := Hv). apply in_range_unsigned in Hu; [|assumption].
  assert (Hnn : 0 <= wrap (promote T) (v + 1)).
  { destruct T; try discriminate S; cbn [promote].
    - rewrite (wrap_id I32); [lia|]. unfold in_range; cbn in *; lia.
    - rewrite (wrap_id I32); [lia|]. unfold in_range; cbn in *; lia.
    - pose proof (wrap_in_range U32 (v + 1)) as R.
      apply in_range_unsigned in R; [lia | reflexivity].
    - pose proof (wrap_in_range U64 (v + 1)) as R.
      apply in_range_unsigned in R; [lia | reflexivity]. }
  assert (R : in_range T (Z.land v (wrap (promote T) (v + 1)))).
  { apply in_range_unsigned; [assumption|]. apply land_range; lia. }
  unfold isa_minus_1, eq, and, add, lit, binop; cbn [type_of num].
  rewrite !(common_int T), !common_promote_r, !common_promote_int.
  rewrite wrap_one, wrap_zero, !(wrap_id _ v Pv).
  rewrite (wrap_id (promote T) (wrap (promote T) (v + 1))) by apply wrap_in_range.
  rewrite !(wrap_id _ _ (in_range_promote _ _ R)).
  reflexivity.
Qed.

(** Adding 1 to a value of an unsigned type either does not wrap or
    starts from the all-ones value and gives 0. *)
Lemma succ_wrap_cases (T : itype) (v : Z) :
  is_signed T = false -> in_range T v ->
  wrap (promote T) (v + 1) = v + 1 \/
  (v = 2 ^ bits T - 1 /\ wrap (promote T) (v + 1) = 0).
Proof.
  intros S Hv. apply in_range_unsigned in Hv; [|assumption].
  destruct T; try discriminate S; cbn [promote bits] in *.
  - left. apply wrap_id. unfold in_range; cbn in *; lia.
  - left. apply wrap_id. unfold in_range; cbn in *; lia.
  - destruct (Z.eq_dec v (2 ^ 32 - 1)) as [-> | N].
    + right. split; reflexivity.
    + left. apply wrap_id. unfold in_range; cbn in *; lia.
  - destruct (Z.eq_dec v (2 ^ 64 - 1)) as [-> | N].
    + right. split; reflexivity.
    + left. apply wrap_id. unfold in_range; cbn in *; lia.
Qed.

Lemma isa_minus_1_ones (T : itype) (k : Z) :
  is_signed T = false -> 0 <= k <= bits T -> isa_minus_1 T (2 ^ k - 1) = true.
Proof.
  intros S Hk.
  assert (Hp : 0 < 2 ^ k) by (apply Z.pow_pos_nonneg; lia).
  assert (Hle : 2 ^ k <= 2 ^ bits T) by (apply Z.pow_le_mono_r; lia).
  assert (Hv : in_range T (2 ^ k - 1)) by (apply in_range_unsigned; [assumption | lia]).
  rewrite isa_minus_1_land by assumption. apply Z.eqb_eq.
  destruct (succ_wrap_cases T _ S Hv) as [-> | [_ ->]].
  - replace (2 ^ k - 1 + 1) with (2 ^ k) by lia.
    apply land_pred_pow2. lia.
  - apply Z.land_0_r.
Qed.

(** X1.  For an unsigned type of [w] bits and every value [v] of it,
    [isa_minus_1] answers [true] exactly when [v] is [2 ^ k - 1] for some
    [0 <= k <= w]: 0, 1, 3, 7, ... up to and including the all-ones
    value, where [v + 1] wraps to 0. *)
Theorem isa_minus_1_spec (T : itype) (v : Z) :
  is_signed T = false -> in_range T v ->
  (isa_minus_1 T v = true <-> exists k, 0 <= k <= bits T /\ v = 2 ^ k - 1).
Proof.
  intros S Hv. split.
  - rewrite isa_minus_1_land by assumption. rewrite Z.eqb_eq.
    assert (Hu := Hv). apply in_range_unsigned in Hu; [|assumption].
    pose proof (bits_pos T) as Hb.
    destruct (succ_wrap_cases T v S Hv) as [-> | [E _]].
    + intros H0.
      assert (P : is_pow2 (v + 1)).
      { apply land_pred_iff; [lia|]. replace (v + 1 - 1) with v by lia. exact H0. }
      destruct P as [k [Hk E]]. exists k. split; [|lia]. split; [assumption|].
      apply (Z.pow_le_mono_r_iff 2); lia.
    + intros _. exists (bits T). split; [lia | assumption].
  - intros [k [Hk ->]]. now apply isa_minus_1_ones.
Qed.

Lemma isa_minus_1_spec_witness :
  (isa_minus_1 U32 4294967295 = true <->
   exists k, 0 <= k <= 32 /\ 4294967295 = 2 ^ k - 1) /\
  (isa_minus_1 U8 5 = true <-> exists k, 0 <= k <= 8 /\ 5 = 2 ^ k - 1).
Proof.
  split.
  - refine (isa_minus_1_spec U32 4294967295 eq_refl _). unfold in_range; cbn; lia.
  - refine (isa_minus_1_spec U8 5 eq_refl _). unfold in_range; cbn; lia.
Defined.

Lemma roundup_minus_1_smear5 (T : itype) (v : Z) :
  is_signed T = false -> in_range T v -> 0 < v ->
  roundup_minus_1 T v = smear5 (v - 1).
Proof.
  intros S Hv Hpos. unfold roundup_minus_1, smear5.
  rewrite (dec_pos T v S Hv Hpos).
  assert (H0 : in_range T (v - 1)).
  { apply in_range_unsigned in Hv; [|assumption].
    apply in_range_unsigned; [assumption | lia]. }
  destruct (or_shr_smear T _ 1 S H0) as [-> H1]; [lia|].
  destruct (or_shr_smear T _ 2 S H1) as [-> H2]; [lia|].
  destruct (or_shr_smear T _ 4 S H2) as [-> H3]; [lia|].
  destruct (or_shr_smear T _ 8 S H3) as [-> H4]; [lia|].
  destruct (or_shr_smear T _ 16 S H4) as [-> H5]; [lia|].
  reflexivity.
Qed.

(** X2.  For an unsigned type and a value [0 < v <= 2 ^ 32] of it,
    [roundup_minus_1] gives the mask [2 ^ n - 1] where [2 ^ n] is the
    least power of two not below [v]; the mask is at least [v - 1] and is
    accepted by [isa_minus_1].  Nothing wraps here, so with at most 32
    bits this covers every positive value of the type. *)
Theorem roundup_minus_1_spec (T : itype) (v : Z) :
  is_signed T = false -> in_range T v -> 0 < v <= 2 ^ 32 ->
  roundup_minus_1 T v = 2 ^ Z.log2_up v - 1 /\
  v - 1 <= roundup_minus_1 T v /\
  isa_minus_1 T (roundup_minus_1 T v) = true.
Proof.
  intros S Hv Hpos.
  assert (E : roundup_minus_1 T v = 2 ^ Z.log2_up v - 1).
  { rewrite roundup_minus_1_smear5 by (assumption || lia).
    pose proof (smear5_log2_up v Hpos). lia. }
  rewrite E. split; [reflexivity|]. split.
  - pose proof (pow2_log2_up_ge v). lia.
  - apply isa_minus_1_ones; [assumption|]. split; [apply Z.log2_up_nonneg|].
    apply in_range_unsigned in Hv; [|assumption].
    apply Z.log2_up_le_pow2; lia.
Qed.

Lemma roundup_minus_1_spec_witness :
  roundup_minus_1 U8 200 = 2 ^ Z.log2_up 200 - 1 /\
  200 - 1 <= roundup_minus_1 U8 200 /\
  isa_minus_1 U8 (roundup_minus_1 U8 200) = true.
Proof.
  refine (roundup_minus_1_spec U8 200 eq_refl _ _).
  - unfold in_range; cbn; lia.
  - cbn; lia.
Defined.

(** ** roundup *)

(** X3.  Where [roundup] rounds (an unsigned type of [w] bits, values
    [0 < v <= 2 ^ (w - 1)] that are at most [2 ^ 32]), its result is at
    least [v] and less than twice [v], and it is monotone. *)
Theorem roundup_bounds (T : itype) (v v' : Z) :
  is_signed T = false ->
  0 < v <= 2 ^ (bits T - 1) -> v <= 2 ^ 32 ->
  0 < v' <= 2 ^ (bits T - 1) -> v' <= 2 ^ 32 ->
  v <= roundup T v < 2 * v /\
  (v <= v' -> roundup T v <= roundup T v').
Proof.
  intros S Hv H32 Hv' H32'.
  rewrite !roundup_in_range by assumption. split.
  - split; [apply pow2_log2_up_ge; lia|].
    destruct (Z.eq_dec v 1) as [-> | N]; [reflexivity|].
    destruct (Z.log2_up_spec v) as [Hlo _]; [lia|].
    assert (Hn : 0 < Z.log2_up v) by (apply Z.log2_up_pos; lia).
    replace (Z.log2_up v) with (Z.succ (Z.pred (Z.log2_up v))) at 1 by lia.
    rewrite Z.pow_succ_r by lia. lia.
  - intros Hle. apply Z.pow_le_mono_r; [lia|].
    apply Z.log2_up_le_mono. assumption.
Qed.

Lemma roundup_bounds_witness :
  1000 <= roundup U16 1000 < 2 * 1000 /\
  (1000 <= 1025 -> roundup U16 1000 <= roundup U16 1025).
Proof.
  refine (roundup_bounds U16 1000 1025 eq_refl _ _ _ _); cbn; lia.
Defined.

Lemma isa_pow2 (T : itype) (k : Z) :
  is_signed T = false -> 0 <= k < bits T -> isa T (2 ^ k) = true.
Proof.
  intros S Hk.
  assert (Hp : 0 < 2 ^ k) by (apply Z.pow_pos_nonneg; lia).
  assert (Hlt : 2 ^ k < 2 ^ bits T) by (apply Z.pow_lt_mono_r; lia).
  rewrite isa_pos; [| assumption | apply in_range_unsigned; [assumption | lia] | assumption].
  apply Z.eqb_eq. apply land_pred_pow2. lia.
Qed.

Lemma roundup_zero (T : itype) : is_signed T = false -> roundup T 0 = 0.
Proof. intros S. destruct T; try discriminate S; reflexivity. Qed.

Lemma isa_zero (T : itype) : is_signed T = false -> isa T 0 = true.
Proof. intros S. destruct T; try discriminate S; reflexivity. Qed.

(** With at most 32 bits [roundup] gives 0 or a power of two of the
    type, below or at [2 ^ (w - 1)]. *)
Lemma roundup_narrow_cases (T : itype) (v : Z) :
  is_signed T = false -> bits T <= 32 -> in_range T v ->
  roundup T v = 0 \/
  exists k, 0 <= k < bits T /\ roundup T v = 2 ^ k.
Proof.
  intros S Hw Hv.
  pose proof (bits_pos T) as Hb.
  assert (Hu := Hv). apply in_range_unsigned in Hu; [|assumption].
  assert (Hle : 2 ^ bits T <= 2 ^ 32) by (apply Z.pow_le_mono_r; lia).
  destruct (Z.eq_dec v 0) as [-> | N]; [left; now apply roundup_zero|].
  destruct (Z_le_gt_dec v (2 ^ (bits T - 1))) as [Hlo | Hhi].
  - right. exists (Z.log2_up v). split.
    + split; [apply Z.log2_up_nonneg|].
      assert (Z.log2_up v <= bits T - 1) by (apply Z.log2_up_le_pow2; lia). lia.
    + apply roundup_in_range; [assumption | lia | lia].
  - left. apply roundup_wraps; [assumption | assumption | lia].
Qed.

(** X4.  For the unsigned types of at most 32 bits and every value of
    the type, 0 and the values above [2 ^ (w - 1)] included, the result
    of [roundup] is accepted by [isa] and is a fixed point of
    [roundup]. *)
Theorem roundup_isa_idempotent (T : itype) (v : Z) :
  is_signed T = false -> bits T <= 32 -> in_range T v ->
  isa T (roundup T v) = true /\
  roundup T (roundup T v) = roundup T v.
Proof.
  intros S Hw Hv.
  destruct (roundup_narrow_cases T v S Hw Hv) as [-> | [k [Hk ->]]].
  - split; [now apply isa_zero | now apply roundup_zero].
  - split; [now apply isa_pow2|].
    assert (Hp : 0 < 2 ^ k) by (apply Z.pow_pos_nonneg; lia).
    assert (H1 : 2 ^ k <= 2 ^ (bits T - 1)) by (apply Z.pow_le_mono_r; lia).
    assert (H2 : 2 ^ k <= 2 ^ 32) by (apply Z.pow_le_mono_r; lia).
    rewrite roundup_in_range by (assumption || lia).
    rewrite Z.log2_up_pow2 by lia. reflexivity.
Qed.

Lemma roundup_isa_idempotent_witness :
  isa U32 (roundup U32 3000000000) = true /\
  roundup U32 (roundup U32 3000000000) = roundup U32 3000000000.
Proof.
  refine (roundup_isa_idempotent U32 3000000000 eq_refl _ _).
  - cbn; lia.
  - unfold in_range; cbn; lia.
Defined.

(** X5.  Where [roundup] rounds, its fixed points are exactly the values
    [isa] accepts. *)
Theorem roundup_fixed_iff_isa (T : itype) (v : Z) :
  is_signed T = false -> 0 < v <= 2 ^ (bits T - 1) -> v <= 2 ^ 32 ->
  (roundup T v = v <-> isa T v = true).
Proof.
  intros S Hv H32.
  pose proof (bits_pos T) as Hb.
  assert (Hlt : 2 ^ (bits T - 1) < 2 ^ bits T) by (apply Z.pow_lt_mono_r; lia).
  assert (Rv : in_range T v) by (apply in_range_unsigned; [assumption | lia]).
  rewrite roundup_in_range by assumption.
  rewrite isa_pos by (assumption || lia).
  rewrite Z.eqb_eq, land_pred_iff by lia. split.
  - intros E. exists (Z.log2_up v). split; [apply Z.log2_up_nonneg | congruence].
  - intros [k [Hk ->]]. now rewrite Z.log2_up_pow2.
Qed.

Lemma roundup_fixed_iff_isa_witness :
  roundup U64 4294967296 = 4294967296 <-> isa U64 4294967296 = true.
Proof.
  refine (roundup_fixed_iff_isa U64 4294967296 eq_refl _ _); cbn; lia.
Defined.

(** ** abs and the sign mask *)

(** X6.  For every signed type and every value of it, the most negative
    one included, [abs] gives the absolute value reduced into the promoted
    type.  With 8 and 16 bits that is the absolute value itself; the
    result is negative only for the most negative value of the 32- and
    64-bit types. *)
Theorem abs_total (T : itype) (v : Z) :
  is_signed T = true -> in_range T v ->
  abs T v = Val (promote T) (wrap (promote T) (Z.abs v)) /\
  (bits T < 32 -> num (abs T v) = Z.abs v) /\
  (num (abs T v) < 0 <-> 32 <= bits T /\ v = min_of T).
Proof.
  intros S Hv.
  assert (E : num (abs T v) = wrap (promote T) (Z.abs v)).
  { destruct (Z_lt_le_dec v 0) as [Hneg | Hpos].
    - rewrite abs_neg by assumption. f_equal. lia.
    - rewrite abs_nonneg by assumption. symmetry.
      rewrite Z.abs_eq by assumption.
      apply wrap_id. now apply in_range_promote. }
  split.
  - pose proof (abs_type T v) as Ht.
    destruct (abs T v) as [t n]; cbn in *. now subst.
  - rewrite E. clear E. unfold in_range, min_of, max_of in Hv.
    destruct T; try discriminate S; cbn in Hv; cbn [promote bits].
    + change (min_of I8) with (-128).
      rewrite (wrap_id I32) by (unfold in_range; cbn; lia). lia.
    + change (min_of I16) with (-32768).
      rewrite (wrap_id I32) by (unfold in_range; cbn; lia). lia.
    + change (min_of I32) with (-2147483648).
      destruct (Z.eq_dec v (-2147483648)) as [-> | N].
      * split; [lia|]. split; [intros _; split; [lia | reflexivity] | reflexivity].
      * rewrite (wrap_id I32) by (unfold in_range; cbn; lia). lia.
    + change (min_of I64) with (-9223372036854775808).
      destruct (Z.eq_dec v (-9223372036854775808)) as [-> | N].
      * split; [lia|]. split; [intros _; split; [lia | reflexivity] | reflexivity].
      * rewrite (wrap_id I64) by (unfold in_range; cbn; lia). lia.
Qed.

Lemma abs_total_witness :
  abs I16 (-32768) = Val I32 (wrap I32 (Z.abs (-32768))) /\
  (16 < 32 -> num (abs I16 (-32768)) = Z.abs (-32768)) /\
  (num (abs I16 (-32768)) < 0 <-> 32 <= 16 /\ -32768 = min_of I16).
Proof.
  refine (abs_total I16 (-32768) eq_refl _). unfold in_range; cbn; lia.
Defined.

(** X7.  For a value of a signed type, the union built by
    [sign_extend] holds the value in its low word and, in its high word,
    which is what [mask()] returns, -1 when the value is negative and 0
    otherwise. *)
Theorem sign_extend_words (T : itype) (v : Z) :
  is_signed T = true -> in_range T v ->
  loword T (sign_extend T v) = v /\
  mask T (sign_extend T v) = (if v <? 0 then -1 else 0).
Proof.
  intros S Hv. split; [|now apply mask_sign].
  unfold loword, sign_extend.
  pose proof (bits_pos T).
  rewrite Z.land_ones by lia.
  apply in_range_signed in Hv; [|assumption].
  unfold wrap. rewrite S.
  destruct T; try discriminate S; cbn in Hv |- *;
    Z.div_mod_to_equations; lia.
Qed.

Lemma sign_extend_words_witness :
  loword I8 (sign_extend I8 (-3)) = -3 /\
  mask I8 (sign_extend I8 (-3)) = (if -3 <? 0 then -1 else 0).
Proof.
  refine (sign_extend_words I8 (-3) eq_refl _). unfold in_range; cbn; lia.
Defined.

(** ** What roundup never does *)

Lemma lor_ge (a b : Z) : 0 <= a -> 0 <= b -> a <= Z.lor a b.
Proof.
  intros Ha Hb.
  assert (E : Z.lor a b = a + Z.ldiff b a).
  { rewrite Z.add_nocarry_lxor.
    - apply Z.bits_inj'. intros i _.
      rewrite Z.lor_spec, Z.lxor_spec, Z.ldiff_spec.
      destruct (Z.testbit a i), (Z.testbit b i); reflexivity.
    - apply Z.bits_inj'. intros i _.
      rewrite Z.land_spec, Z.ldiff_spec, Z.bits_0.
      destruct (Z.testbit a i), (Z.testbit b i); reflexivity. }
  assert (0 <= Z.ldiff b a) by (apply Z.ldiff_nonneg; left; assumption).
  lia.
Qed.

Lemma smear_ge (s m : Z) : 0 <= s -> 0 <= m -> s <= smear s m.
Proof.
  intros Hs Hm. unfold smear. apply lor_ge; [assumption|].
  apply Z.shiftr_nonneg. assumption.
Qed.

Lemma smear5_bounds (n x : Z) :
  0 <= n -> 0 <= x < 2 ^ n -> x <= smear5 x < 2 ^ n.
Proof.
  intros Hn Hx. unfold smear5.
  assert (step : forall s m, 0 <= m -> x <= s < 2 ^ n -> x <= smear s m < 2 ^ n).
  { intros s m Hm Hs. split.
    - pose proof (smear_ge s m). lia.
    - unfold smear. apply lor_range; [assumption | lia |].
      apply shiftr_range; lia. }
  apply step; [lia|]. apply step; [lia|]. apply step; [lia|].
  apply step; [lia|]. apply step; [lia|]. lia.
Qed.

(** X19.  For every unsigned type, 64 bits included, and every value
    [v > 0] of it, [roundup] never rounds down: its result is 0, when the
    final increment wraps, or at least [v]; and [roundup_minus_1] gives at
    least [v - 1]. *)
Theorem roundup_never_rounds_down (T : itype) (v : Z) :
  is_signed T = false -> in_range T v -> 0 < v ->
  (roundup T v = 0 \/ v <= roundup T v) /\
  v - 1 <= roundup_minus_1 T v.
Proof.
  intros S Hv Hpos.
  pose proof (bits_pos T) as Hb.
  assert (Hu := Hv). apply in_range_unsigned in Hu; [|assumption].
  pose proof (smear5_bounds (bits T) (v - 1)) as B.
  rewrite roundup_smear5, roundup_minus_1_smear5 by assumption.
  split; [|lia].
  destruct (Z.eq_dec (smear5 (v - 1) + 1) (2 ^ bits T)) as [E | N].
  - left. rewrite E. destruct T; try discriminate S; reflexivity.
  - right. rewrite wrap_id; [lia|]. apply in_range_unsigned; [assumption | lia].
Qed.

Lemma roundup_never_rounds_down_witness :
  (roundup U64 4294967297 = 0 \/ 4294967297 <= roundup U64 4294967297) /\
  4294967297 - 1 <= roundup_minus_1 U64 4294967297.
Proof.
  refine (roundup_never_rounds_down U64 4294967297 eq_refl _ eq_refl).
  unfold in_range; cbn; lia.
Defined.

End BranchlessMore.

(* ================================================================== *)
(** * Further properties of the RAII wrappers *)
(* ================================================================== *)

Module RaiiMore.
Import Posix Runs Views RaiiFacts.

(** ** The two headers compared *)

Lemma close_loop_unlabel (l : option string) (h : Z) (rs : list reply) (w : world) :
  close_loop None h rs w =
  (unlabel (fst (close_loop l h rs w)), snd (close_loop l h rs w)).
Proof.
  revert w. induction rs as [| r rs IH]; intros w.
  - reflexivity.
  - cbn. destruct (ret r =? 0); [reflexivity|].
    destruct (err r =? EINTR); [apply IH | reflexivity].
Qed.

Lemma strict_close_if_valid (f : Fd.fd) (w : world) :
  FdStrict.close_if_valid (to_strict f) w =
  (let '(o, f', w') := Fd.close f w in (unlabel o, to_strict f', w')).
Proof.
  destruct f as [h].
  unfold FdStrict.close_if_valid, FdStrict.close, Fd.close, to_strict.
  cbn [Fd.handle FdStrict.handle].
  unfold FdStrict.invalid, Fd.invalid, FdStrict.label.
  destruct (h =? -1); cbn [negb]; [reflexivity|].
  rewrite (close_loop_unlabel Fd.label).
  destruct (close_loop Fd.label h (pending w) w) as [[u | e | |] w1]; reflexivity.
Qed.

(** X8.  Through their public operations the two [fd] headers behave
    alike: the destructor, [reset], assignment of a raw value and
    move-assignment of the second header give, on the same handle and the
    same world, the results of the first, except that a thrown error
    carries no label. *)
Theorem strict_matches_lenient (f other : Fd.fd) (raw : Z) (w : world) :
  FdStrict.destroy (to_strict f) w =
    (let '(o, f', w') := Fd.destroy f w in (unlabel o, to_strict f', w')) /\
  FdStrict.reset (to_strict f) raw w =
    (let '(o, f', w') := Fd.reset f raw w in (unlabel o, to_strict f', w')) /\
  FdStrict.assign_raw (to_strict f) raw w =
    (let '(o, f', w') := Fd.assign_raw f raw w in (unlabel o, to_strict f', w')) /\
  FdStrict.assign_move (to_strict f) (to_strict other) w =
    (let '(o, f', other', w') := Fd.assign_move f other w in
     (unlabel o, to_strict f', to_strict other', w')).
Proof.
  unfold FdStrict.destroy, FdStrict.reset, FdStrict.assign_raw, FdStrict.assign_move.
  unfold Fd.destroy, Fd.reset, Fd.assign_raw, Fd.assign_move.
  rewrite !strict_close_if_valid.
  destruct (Fd.close f w) as [[[u | e | |] f1] w1]; repeat split; reflexivity.
Qed.

(** ** Release happens once *)

(** What [fd::close] leaves behind when it returns. *)
Lemma fd_close_leaves_sentinel (this this' : Fd.fd) (w w' : world) (u : unit) :
  Fd.close this w = (Returned u, this', w') -> this' = Fd.Build Fd.invalid.
Proof.
  destruct this as [h]. unfold Fd.close; cbn [Fd.handle].
  destruct (Z.eqb_spec h Fd.invalid) as [-> | N].
  - intros H. injection H as _ <- _. reflexivity.
  - destruct (close_loop Fd.label h (pending w) w) as [[u' | e | |] w1];
      intros H; try discriminate H. injection H as _ <- _. reflexivity.
Qed.

Lemma mmap_close_leaves_sentinel (this this' : Mmap.mmap) (w w' : world) (u : unit) :
  Mmap.close this w = (Returned u, this', w') -> Mmap.address this' = MAP_FAILED.
Proof.
  unfold Mmap.close.
  destruct (Z.eqb_spec (Mmap.address this) MAP_FAILED) as [E | N].
  - intros H. injection H as _ <- _. assumption.
  - destruct (syscall _ w) as [[r w1] |]; [|discriminate].
    destruct (ret r =? -1); intros H; [discriminate H|].
    injection H as _ <- _. reflexivity.
Qed.

(** A [close] that does not return leaves the object as it was. *)
Lemma fd_close_keeps (this this' : Fd.fd) (w w' : world) (o : outcome unit) :
  Fd.close this w = (o, this', w') -> (forall u, o <> Returned u) -> this' = this.
Proof.
  unfold Fd.close.
  destruct (Fd.handle this =? Fd.invalid).
  - intros H. injection H as _ <- _. reflexivity.
  - destruct (close_loop Fd.label (Fd.handle this) (pending w) w) as [[u' | e | |] w1];
      intros H N; injection H as <- <- _; try reflexivity.
    exfalso. apply (N tt). reflexivity.
Qed.

Lemma strict_close_keeps (this this' : FdStrict.fd) (w w' : world) (o : outcome unit) :
  FdStrict.close_if_valid this w = (o, this', w') ->
  (forall u, o <> Returned u) -> this' = this.
Proof.
  unfold FdStrict.close_if_valid, FdStrict.close.
  destruct (FdStrict.handle this =? FdStrict.invalid); cbn [negb].
  - intros H. injection H as _ <- _. reflexivity.
  - destruct (close_loop FdStrict.label (FdStrict.handle this) (pending w) w)
      as [[u' | e | |] w1];
      intros H N; injection H as <- <- _; try reflexivity.
    exfalso. apply (N tt). reflexivity.
Qed.

Lemma mmap_close_keeps (this this' : Mmap.mmap) (w w' : world) (o : outcome unit) :
  Mmap.close this w = (o, this', w') -> (forall u, o <> Returned u) -> this' = this.
Proof.
  unfold Mmap.close.
  destruct (Mmap.address this =? MAP_FAILED).
  - intros H. injection H as _ <- _. reflexivity.
  - destruct (syscall _ w) as [[r w1] |].
    + destruct (ret r =? -1); intros H N; injection H as <- <- _; try reflexivity.
      exfalso. apply (N tt). reflexivity.
    + intros H. injection H as _ <- _. reflexivity.
Qed.

(** X9.  A destructor that has returned has nothing left to release: run
    again on the object it left, the destructor of [fd] (either header)
    and of [mmap] returns without a system call, and the object converts
    to [false]. *)
Theorem destroy_twice
        (f f' : Fd.fd) (g g' : FdStrict.fd) (m m' : Mmap.mmap)
        (wf wf' wg wg' wm wm' : world) (u1 u2 u3 : unit) :
  Fd.destroy f wf = (Returned u1, f', wf') ->
  FdStrict.destroy g wg = (Returned u2, g', wg') ->
  Mmap.destroy m wm = (Returned u3, m', wm') ->
  (Fd.destroy f' wf' = (Returned tt, f', wf') /\ Fd.to_bool f' = false) /\
  (FdStrict.destroy g' wg' = (Returned tt, g', wg') /\ FdStrict.to_bool g' = false) /\
  (Mmap.destroy m' wm' = (Returned tt, m', wm') /\ Mmap.to_bool m' = false).
Proof.
  intros Hf Hg Hm. split; [|split].
  - apply fd_close_leaves_sentinel in Hf. subst f'. split; reflexivity.
  - destruct g as [h].
    pose proof (strict_close_if_valid (Fd.Build h) wg) as E.
    unfold to_strict in E; cbn [Fd.handle] in E.
    unfold FdStrict.destroy in Hg. rewrite E in Hg.
    destruct (Fd.close (Fd.Build h) wg) as [[o f1] w1] eqn:D.
    destruct o; try discriminate Hg.
    apply fd_close_leaves_sentinel in D. subst f1.
    injection Hg as _ <- _. split; reflexivity.
  - apply mmap_close_leaves_sentinel in Hm.
    unfold Mmap.destroy, Mmap.close, Mmap.to_bool. rewrite Hm, Z.eqb_refl.
    split; reflexivity.
Qed.

Lemma destroy_twice_witness :
  let script := [Reply (-1) 4 0; Reply 0 0 0] in
  (Fd.destroy (Fd.Build (-1)) (World [] 0 [(Close 3, Reply (-1) 4 0); (Close 3, Reply 0 0 0)])
   = (Returned tt, Fd.Build (-1),
      World [] 0 [(Close 3, Reply (-1) 4 0); (Close 3, Reply 0 0 0)]) /\
   Fd.to_bool (Fd.Build (-1)) = false) /\
  (FdStrict.destroy (FdStrict.Build (-1)) (World script 0 [])
   = (Returned tt, FdStrict.Build (-1), World script 0 []) /\
   FdStrict.to_bool (FdStrict.Build (-1)) = false) /\
  (Mmap.destroy Mmap.sentinel (World [] 0 [(Munmap 4096 8192, Reply 0 0 0)])
   = (Returned tt, Mmap.sentinel, World [] 0 [(Munmap 4096 8192, Reply 0 0 0)]) /\
   Mmap.to_bool Mmap.sentinel = false).
Proof.
  cbv zeta.
  refine (destroy_twice (Fd.Build 3) (Fd.Build (-1))
                        (FdStrict.Build (-1)) (FdStrict.Build (-1))
                        (Mmap.Build 4096 8192) Mmap.sentinel
                        (World [Reply (-1) 4 0; Reply 0 0 0] 4 []) _
                        (World [Reply (-1) 4 0; Reply 0 0 0] 0 []) _
                        (World [Reply 0 0 0] 0 []) _ tt tt tt _ _ _);
    reflexivity.
Defined.



(** X11.  [reset] and assignment of a raw value are all or nothing as
    well: either the call returns and the object holds the new value, or
    it does not return and the object is as it was; the new value has not
    been adopted. *)
Theorem reset_all_or_nothing
        (f f' : Fd.fd) (g g' : FdStrict.fd) (m m' : Mmap.mmap)
        (raw addr len : Z) (wf wf' wg wg' wm wm' : world) (o1 o2 o3 : outcome unit) :
  Fd.reset f raw wf = (o1, f', wf') ->
  FdStrict.reset g raw wg = (o2, g', wg') ->
  Mmap.reset m addr len wm = (o3, m', wm') ->
  Fd.assign_raw f raw wf = Fd.reset f raw wf /\
  FdStrict.assign_raw g raw wg = FdStrict.reset g raw wg /\
  (o1 = Returned tt /\ f' = Fd.Build raw \/ o1 <> Returned tt /\ f' = f) /\
  (o2 = Returned tt /\ g' = FdStrict.Build raw \/ o2 <> Returned tt /\ g' = g) /\
  (o3 = Returned tt /\ m' = Mmap.Build addr len \/ o3 <> Returned tt /\ m' = m).
Proof.
  intros Hf Hg Hm. split; [reflexivity|]. split; [reflexivity|]. split; [|split].
  - unfold Fd.reset in Hf.
    destruct (Fd.close f wf) as [[o f1] w1] eqn:C.
    pose proof (fd_close_keeps f f1 wf w1 o C) as K.
    destruct o; injection Hf as <- <- <-;
      [left; split; reflexivity | right | right | right];
      (split; [discriminate | apply K; discriminate]).
  - unfold FdStrict.reset in Hg.
    destruct (FdStrict.close_if_valid g wg) as [[o g1] w1] eqn:C.
    pose proof (strict_close_keeps g g1 wg w1 o C) as K.
    destruct o; injection Hg as <- <- <-;
      [left; split; reflexivity | right | right | right];
      (split; [discriminate | apply K; discriminate]).
  - unfold Mmap.reset in Hm.
    destruct (Mmap.close m wm) as [[o m1] w1] eqn:C.
    pose proof (mmap_close_keeps m m1 wm w1 o C) as K.
    destruct o; injection Hm as <- <- <-;
      [left; split; reflexivity | right | right | right];
      (split; [discriminate | apply K; discriminate]).
Qed.

Lemma reset_all_or_nothing_witness :
  Fd.assign_raw (Fd.Build 3) 9 (World [Reply (-1) 4 0] 0 []) =
    Fd.reset (Fd.Build 3) 9 (World [Reply (-1) 4 0] 0 []) /\
  FdStrict.assign_raw (FdStrict.Build 3) 9 (World [Reply 0 0 0] 0 []) =
    FdStrict.reset (FdStrict.Build 3) 9 (World [Reply 0 0 0] 0 []) /\
  (Blocked = Returned tt /\ Fd.Build 3 = Fd.Build 9 \/
   Blocked <> Returned tt /\ Fd.Build 3 = Fd.Build 3) /\
  (Returned tt = Returned tt /\ FdStrict.Build 9 = FdStrict.Build 9 \/
   Returned tt <> Returned tt /\ FdStrict.Build 9 = FdStrict.Build 3) /\
  (Thrown (SystemError 22 (Some "munmap"%string)) = Returned tt /\
   Mmap.Build 4096 32 = Mmap.Build 8192 64 \/
   Thrown (SystemError 22 (Some "munmap"%string)) <> Returned tt /\
   Mmap.Build 4096 32 = Mmap.Build 4096 32).
Proof.
  refine (reset_all_or_nothing
            (Fd.Build 3) (Fd.Build 3) (FdStrict.Build 3) (FdStrict.Build 9)
            (Mmap.Build 4096 32) (Mmap.Build 4096 32)
            9 8192 64
            (World [Reply (-1) 4 0] 0 []) _
            (World [Reply 0 0 0] 0 []) _
            (World [Reply (-1) 22 0] 0 []) _
            _ _ _ _ _ _);
    reflexivity.
Defined.

(** ** A handle that has been moved *)

Lemma one_zero_answer (h : Z) (ints : list reply) (c : reply) :
  Forall interrupted ints -> ret c = 0 ->
  List.length (filter (fun ev => ret (snd ev) =? 0) (closes h (ints ++ [c]))) = 1%nat.
Proof.
  intros Hints Hc. induction Hints as [| i ints [Hret _] _ IH].
  - cbn. rewrite Hc. reflexivity.
  - cbn. destruct (Z.eqb_spec (ret i) 0) as [E | _]; [contradiction | exact IH].
Qed.

(** X12.  [fd a(h); fd b(std::move(a));] followed by the destructors of
    [b] and then of [a], for either header: the calls made are those of
    the destructor of [b], every one a [::close h] and exactly one of them
    answered 0; the destructor of the moved-from [a] makes none. *)
Theorem moved_handle_closed_once (h : Z) (ints : list reply) (c : reply)
        (rs : list reply) (e : Z) (tr : list (call * reply)) :
  h <> -1 -> Forall interrupted ints -> ret c = 0 ->
  let w := World (ints ++ c :: rs) e tr in
  let w' := World rs (err c) (tr ++ closes h (ints ++ [c])) in
  (let '(b, a) := Fd.move_construct (Fd.Build h) in
   Fd.destroy b w = (Returned tt, Fd.Build Fd.invalid, w') /\
   Fd.destroy a w' = (Returned tt, a, w')) /\
  (let '(b, a) := FdStrict.move_construct (FdStrict.Build h) in
   FdStrict.destroy b w = (Returned tt, FdStrict.Build FdStrict.invalid, w') /\
   FdStrict.destroy a w' = (Returned tt, a, w')) /\
  List.length (filter (fun ev => ret (snd ev) =? 0) (closes h (ints ++ [c]))) = 1%nat.
Proof.
  intros Hh Hints Hc w w'. subst w w'.
  assert (Hn : ~ interrupted c) by (intros [N _]; contradiction).
  cbn [Fd.move_construct FdStrict.move_construct Fd.handle FdStrict.handle].
  unfold Fd.destroy, FdStrict.destroy, FdStrict.close_if_valid, Fd.close, FdStrict.close.
  cbn [Fd.handle FdStrict.handle pending]. unfold Fd.invalid, FdStrict.invalid.
  destruct (Z.eqb_spec h (-1)) as [E | _]; [contradiction|].
  cbn [negb]. rewrite !close_loop_run by assumption. rewrite Hc. cbn.
  repeat split. now apply one_zero_answer.
Qed.

Lemma moved_handle_closed_once_witness :
  let w := World [Reply (-1) 4 0; Reply 0 0 0; Reply 9 9 9] 0 [] in
  let w' := World [Reply 9 9 9] 0 [(Close 3, Reply (-1) 4 0); (Close 3, Reply 0 0 0)] in
  (Fd.destroy (Fd.Build 3) w = (Returned tt, Fd.Build (-1), w') /\
   Fd.destroy (Fd.Build (-1)) w' = (Returned tt, Fd.Build (-1), w')) /\
  (FdStrict.destroy (FdStrict.Build 3) w = (Returned tt, FdStrict.Build (-1), w') /\
   FdStrict.destroy (FdStrict.Build (-1)) w' = (Returned tt, FdStrict.Build (-1), w')) /\
  List.length (filter (fun ev => ret (snd ev) =? 0)
                      [(Close 3, Reply (-1) 4 0); (Close 3, Reply 0 0 0)]) = 1%nat.
Proof.
  refine (moved_handle_closed_once 3 [Reply (-1) 4 0] (Reply 0 0 0) [Reply 9 9 9] 0 []
                                   _ _ _).
  - discriminate.
  - repeat constructor; discriminate.
  - reflexivity.
Defined.

(** ** Mapping and unmapping *)



(** ** The constructor from a handle when [::close] fails *)





(** ** Address and length of a region *)

Lemma mmap_close_paired (this this' : Mmap.mmap) (w w' : world) (o : outcome unit) :
  Mmap.close this w = (o, this', w') -> paired this -> paired this'.
Proof.
  unfold Mmap.close.
  destruct (Mmap.address this =? MAP_FAILED).
  - intros H. injection H as _ <- _. trivial.
  - destruct (syscall _ w) as [[r w1] |].
    + destruct (ret r =? -1); intros H; injection H as _ <- _; trivial.
      intros _ _. reflexivity.
    + intros H. injection H as _ <- _. trivial.
Qed.

(** X16.  Address and length are cleared together.  If a region with
    the failure marker as its address has length 0, so has every region
    left or produced by the destructor, move-construction,
    move-assignment, [release], [reset] with its default arguments and the
    two constructors. *)
Theorem paired_is_kept (this other : Mmap.mmap) (w : world) :
  paired this -> paired other ->
  paired (snd (fst (Mmap.destroy this w))) /\
  paired (fst (Mmap.move_construct other)) /\
  paired (snd (Mmap.move_construct other)) /\
  paired (snd (fst (fst (Mmap.assign_move this other w)))) /\
  paired (snd (fst (Mmap.assign_move this other w))) /\
  paired (snd (fst (Mmap.release this w))) /\
  paired (snd (fst (Mmap.reset_default this w))) /\
  (forall len protection flags offset m,
      fst (Mmap.construct_anonymous len protection flags offset w) = Returned m ->
      paired m) /\
  (forall fd protection flags offset m,
      fst (fst (Mmap.construct_from_fd fd protection flags offset w)) = Returned m ->
      paired m).
Proof.
  intros Ht Ho.
  assert (Hs : paired Mmap.sentinel) by (intros _; reflexivity).
  split.
  { unfold Mmap.destroy. destruct (Mmap.close this w) as [[o t'] w'] eqn:C.
    apply (mmap_close_paired _ _ _ _ _ C Ht). }
  split. { destruct other as [oa ol]. exact Ho. }
  split. { exact Hs. }
  split.
  { unfold Mmap.assign_move. destruct (Mmap.close this w) as [[o t'] w'] eqn:C.
    destruct o; cbn [fst snd]; try apply (mmap_close_paired _ _ _ _ _ C Ht).
    destruct other as [oa ol]. exact Ho. }
  split.
  { unfold Mmap.assign_move. destruct (Mmap.close this w) as [[o t'] w'] eqn:C.
    destruct o; cbn [fst snd]; try exact Ho. exact Hs. }
  split. { exact Hs. }
  split.
  { unfold Mmap.reset_default, Mmap.reset.
    destruct (Mmap.close this w) as [[o t'] w'] eqn:C.
    destruct o; cbn [fst snd]; try apply (mmap_close_paired _ _ _ _ _ C Ht).
    intros N. discriminate N. }
  split.
  { intros len protection flags offset m.
    unfold Mmap.construct_anonymous.
    destruct (syscall _ w) as [[r w1] |]; [|discriminate].
    destruct (Z.eqb_spec (ret r) MAP_FAILED) as [E | N]; [discriminate|].
    intros H. injection H as <-. intros A. contradiction. }
  intros fd protection flags offset m.
  unfold Mmap.construct_from_fd; cbn [Fd.move_construct].
  destruct (Mmap.from_fd_body _ protection flags offset w) as [o w1] eqn:B.
  assert (Hb : forall m', o = Returned m' -> paired m').
  { unfold Mmap.from_fd_body in B.
    destruct (syscall _ w) as [[info w0] |]; [|injection B as <- _; discriminate].
    destruct (ret info =? -1); [injection B as <- _; discriminate|].
    destruct (syscall _ w0) as [[r w2] |]; [|injection B as <- _; discriminate].
    destruct (Z.eqb_spec (ret r) MAP_FAILED) as [E | N];
      [injection B as <- _; discriminate|].
    injection B as <- _. intros m' H. injection H as <-. intros A. contradiction. }
  destruct o as [m' | e | |]; try discriminate;
    destruct (Fd.destroy _ w1) as [[[u | e' | |] f1] w2]; try discriminate.
  cbn. intros H. injection H as <-. now apply Hb.
Qed.

Lemma paired_is_kept_witness :
  paired (snd (fst (Mmap.destroy (Mmap.Build 4096 64) (World [Reply 0 0 0] 0 [])))) /\
  paired (snd (fst (Mmap.release (Mmap.Build 4096 64) (World [Reply 0 0 0] 0 [])))).
Proof.
  pose proof (paired_is_kept (Mmap.Build 4096 64) Mmap.sentinel (World [Reply 0 0 0] 0 []))
    as K.
  assert (H1 : paired (Mmap.Build 4096 64)) by (intros N; discriminate N).
  assert (H2 : paired Mmap.sentinel) by (intros _; reflexivity).
  destruct (K H1 H2) as [A [_ [_ [_ [_ [B _]]]]]].
  split; [exact A | exact B].
Defined.

(** X17.  The comparison operators: [==] holds exactly when the two
    handles, respectively the two regions (address and length), are the
    same, and [!=] is its negation. *)
Theorem comparisons_decide_equality (a b : Fd.fd) (c d : FdStrict.fd) (m n : Mmap.mmap) :
  (Fd.eqb a b = true <-> a = b) /\ Fd.neqb a b = negb (Fd.eqb a b) /\
  (FdStrict.eqb c d = true <-> c = d) /\ FdStrict.neqb c d = negb (FdStrict.eqb c d) /\
  (Mmap.eqb m n = true <-> m = n) /\ Mmap.neqb m n = negb (Mmap.eqb m n).
Proof.
  destruct a as [x], b as [y], c as [x'], d as [y'], m as [a1 l1], n as [a2 l2].
  unfold Fd.eqb, Fd.neqb, FdStrict.eqb, FdStrict.neqb, Mmap.eqb, Mmap.neqb; cbn.
  repeat split; try reflexivity.
  - intros H. apply Z.eqb_eq in H. now subst.
  - intros H. injection H as ->. apply Z.eqb_refl.
  - intros H. apply Z.eqb_eq in H. now subst.
  - intros H. injection H as ->. apply Z.eqb_refl.
  - intros H. apply andb_true_iff in H. destruct H as [H1 H2].
    apply Z.eqb_eq in H1, H2. now subst.
  - intros H. injection H as -> ->. now rewrite !Z.eqb_refl.
  - now rewrite negb_andb.
Qed.

(** ** The constructor from a handle that owns nothing *)


End RaiiMore.
